(** * test-pkgmatch: the pkg_match cross-product driver

    A shallow embedding of [examples/test-pkgmatch.c].  The program reads a
    file of dependency patterns and a file of package names into two
    NULL-terminated, growable arrays of C strings and prints every pair
    that the external function [pkg_match] accepts.

    Conventions of the model (LP64):
    - [int] is 32 bits, [size_t] is 64 bits, a pointer is 8 bytes;
      [size_t] arithmetic wraps, signed overflow is undefined behaviour;
    - bytes are [ascii], a buffer is a [list ascii], a C string (the bytes
      in front of its terminating NUL) is a [string];
    - an array of [char *] is a [list cell]; freshly allocated cells are
      indeterminate and reading one is undefined behaviour;
    - allocation ([xmalloc], [xrealloc], [strdup]) never runs out of
      memory.

    A run either ends with an exit status or leaves defined behaviour
    ([Undefined], with the reason).  The statements below are about runs
    that stay defined, and say so; the lemmas [read_file_complete],
    [read_loop_overflow], [main_completes] and [main_fuel] tell which runs
    those are.  Where [strdup] reads past a line, [insert_line_mem],
    [read_loop_mem], [read_file_mem] and [main_mem] follow the read into
    the bytes that lie behind the line in memory. *)

From Stdlib Require Import ZArith Ascii String List Lia.
From stdpp Require Import base decidable option list numbers strings sorting.

Local Open Scope Z_scope.

(** ** Results of running C code *)

(** The ways in which the program can leave defined behaviour. *)
Inductive ub : Set :=
| ReadPastLine      (* strdup runs off the end of a line that has no NUL *)
| IntOverflow       (* [int] increment beyond INT_MAX *)
| OutOfBounds       (* array access outside the allocated cells *)
| ReadIndeterminate (* read of a cell that was never written *)
| NullArgument.     (* NULL passed where a string is required *)

Inductive result (A : Type) : Type :=
| Ok (a : A)
| Undefined (u : ub)
| OutOfFuel.

Arguments Ok {A} a.
Arguments Undefined {A} u.
Arguments OutOfFuel {A}.

#[global] Instance result_ret : MRet result := λ A a, Ok a.

#[global] Instance result_bind : MBind result := λ A B f m,
  match m with
  | Ok a => f a
  | Undefined u => Undefined u
  | OutOfFuel => OutOfFuel
  end.

(** ** Machine integers *)

Definition INT_MAX : Z := 2 ^ 31 - 1.
Definition SIZE_MODULUS : Z := 2 ^ 64.
Definition sizeof_ptr : Z := 8.

(** [size_t] multiplication, as in [dsize * sizeof(char * )] and [dsize *= 2]. *)
Definition size_mul (a b : Z) : Z := (a * b) mod SIZE_MODULUS.

(** Conversion of an [int] to [size_t], as in [d == dsize]. *)
Definition size_of_int (i : Z) : Z := i mod SIZE_MODULUS.

(** [i++] on an [int]. *)
Definition int_incr (i : Z) : result Z :=
  if decide (i < INT_MAX) then Ok (i + 1) else Undefined IntOverflow.

(** ** Bytes, buffers and C strings *)

Definition NUL : ascii := "000"%char.
Definition LF : ascii := "010"%char.

(** [strdup(buf)]: the bytes of [buf] in front of the first NUL.  The buffer
    handed out by [fgetln] is not NUL-terminated, so a buffer without a NUL
    makes [strdup] read past its end. *)
Fixpoint strdup (buf : list ascii) : result string :=
  match buf with
  | [] => Undefined ReadPastLine
  | c :: rest =>
      if Ascii.eqb c NUL then Ok EmptyString
      else s ← strdup rest; Ok (String c s)
  end.

(** The successive lines that [fgetln] returns for a stream holding [bytes]:
    each line runs up to and including its newline, the last one may lack
    it, and no line is empty. *)
Fixpoint file_lines (bytes : list ascii) : list (list ascii) :=
  match bytes with
  | [] => []
  | c :: rest =>
      if Ascii.eqb c LF then [c] :: file_lines rest
      else match file_lines rest with
           | [] => [[c]]
           | l :: ls => (c :: l) :: ls
           end
  end.

(** ** Arrays of string pointers *)

Inductive cell : Type :=
| Indet               (* never written *)
| Null                (* NULL *)
| Str (s : string).   (* pointer to a C string *)

(** [a[i] = v] *)
Definition store (a : list cell) (i : Z) (v : cell) : result (list cell) :=
  if decide (0 ≤ i < Z.of_nat (length a))
  then Ok (<[Z.to_nat i := v]> a)
  else Undefined OutOfBounds.

(** [a[i]] *)
Definition load (a : list cell) (i : Z) : result cell :=
  if decide (0 ≤ i)
  then match a !! Z.to_nat i with
       | Some Indet => Undefined ReadIndeterminate
       | Some c => Ok c
       | None => Undefined OutOfBounds
       end
  else Undefined OutOfBounds.

(** [xmalloc(size)] seen as an array of pointers. *)
Definition xmalloc (size : Z) : list cell :=
  replicate (Z.to_nat (size / sizeof_ptr)) Indet.

(** [xrealloc(a, size)]: the old cells are kept, new ones are indeterminate. *)
Definition xrealloc (a : list cell) (size : Z) : list cell :=
  let n := Z.to_nat (size / sizeof_ptr) in
  take n a ++ replicate (n - length a)%nat Indet.

(** ** The reading loop (lines 55-68 for deps, 70-82 for pkgs) *)

(** The variables of one reading loop: the array, the [int] count ([d] or
    [p]) and the [size_t] capacity ([dsize] or [psize]). *)
Record growarr : Type := GrowArr {
  arr : list cell;
  cnt : Z;
  cap : Z
}.

Definition INITIAL_SIZE : Z := 32768.

(** [d = 0; deps = xmalloc(dsize * sizeof(char * ));] *)
Definition read_init : growarr :=
  GrowArr (xmalloc (size_mul INITIAL_SIZE sizeof_ptr)) 0 INITIAL_SIZE.

(** [if (dep[dlen - 1] == '\n') dep[dlen - 1] = '\0';] *)
Definition chomp (dep : list ascii) : result (list ascii) :=
  match length dep with
  | O => Undefined OutOfBounds
  | S k =>
      if decide (dep !! k = Some LF) then Ok (<[k := NUL]> dep) else Ok dep
  end.

(** One iteration of the loop body, for the line [dep] just returned by
    [fgetln]. *)
Definition insert_line (st : growarr) (dep : list ascii) : result growarr :=
  buf ← chomp dep;
  s ← strdup buf;
  a ← store (arr st) (cnt st) (Str s);
  d ← int_incr (cnt st);
  if decide (size_of_int d = cap st)
  then
    let dsize := size_mul (cap st) 2 in
    Ok (GrowArr (xrealloc a (size_mul dsize sizeof_ptr)) d dsize)
  else Ok (GrowArr a d (cap st)).

(** [while ((dep = fgetln(dfd, &dlen)) != NULL) { ... }] on a stream whose
    unread lines are [fp]: [fgetln] hands out the next line, or NULL once
    the stream is exhausted. *)
Fixpoint read_loop (st : growarr) (fp : list (list ascii)) : result growarr :=
  match fp with
  | [] => Ok st
  | dep :: fp' => st' ← insert_line st dep; read_loop st' fp'
  end.

(** [deps[d] = NULL;] *)
Definition terminate (st : growarr) : result growarr :=
  a ← store (arr st) (cnt st) Null;
  Ok (GrowArr a (cnt st) (cap st)).

(** A whole reading phase over the contents of one opened file. *)
Definition read_file (bytes : list ascii) : result growarr :=
  st ← read_loop read_init (file_lines bytes);
  terminate st.

(** ** The matcher behind [pkg_match]

    [pkg_match] is only declared in this file ([extern int pkg_match(const
    char *, const char * )]); its code lives in pkg_install.  The driver
    below takes it as a parameter.  Where a concrete matcher is needed, the
    two modules that follow give one, written from the specification. *)

Module VersionComparator.

(** Modelled from the spec: the result of [compare] in section 4.1 (the
    comparator, dewey.c of pkg_install, is not part of this file). *)
Inductive ordering : Set := LESS | EQUAL | GREATER.

(** Modelled from the spec: the components of a Version (the tokenizer of
    pkg_install's dewey.c is not part of this file).  A component is a run
    of digits or a run of non-digits; the digits are kept as written, so
    that concatenating the components gives the version string back. *)
Inductive component : Set :=
| IntRun (digits : string)
| TextRun (text : string).

(** Modelled from the spec: the bytes of an integer run, the decimal digits
    (dewey.c is missing). *)
Definition is_digit (c : ascii) : bool :=
  (48 <=? nat_of_ascii c)%nat && (nat_of_ascii c <=? 57)%nat.

(** Modelled from the spec: the letters, of which a suffix that ranks below
    the absence of a suffix is made (dewey.c is missing). *)
Definition is_letter (c : ascii) : bool :=
  ((65 <=? nat_of_ascii c)%nat && (nat_of_ascii c <=? 90)%nat)
  || ((97 <=? nat_of_ascii c)%nat && (nat_of_ascii c <=? 122)%nat).

(** Modelled from the spec: tokenization of a version string, splitting at
    digit/non-digit boundaries from left to right (dewey.c is missing). *)
Fixpoint tokenize (s : string) : list component :=
  match s with
  | EmptyString => []
  | String c rest =>
      match is_digit c, tokenize rest with
      | true, IntRun ds :: cs => IntRun (String c ds) :: cs
      | true, cs => IntRun (String c EmptyString) :: cs
      | false, TextRun t :: cs => TextRun (String c t) :: cs
      | false, cs => TextRun (String c EmptyString) :: cs
      end
  end.

(** Modelled from the spec: the number written by a run of digits, for the
    numeric comparison; leading zeros do not count (dewey.c is missing). *)
Fixpoint digits_value_from (acc : N) (ds : string) : N :=
  match ds with
  | EmptyString => acc
  | String c rest =>
      digits_value_from (acc * 10 + (N_of_ascii c - 48))%N rest
  end.

(** Modelled from the spec: the value of an integer run (dewey.c is
    missing). *)
Definition digits_value (ds : string) : N := digits_value_from 0%N ds.

(** Modelled from the spec: a run made of letters only (dewey.c is
    missing). *)
Fixpoint letters_only (t : string) : bool :=
  match t with
  | EmptyString => true
  | String c rest => is_letter c && letters_only rest
  end.

(** Modelled from the spec: the first non-equal comparison decides,
    otherwise the walk goes on (dewey.c is missing). *)
Definition of_comparison (c : comparison) (on_eq : ordering) : ordering :=
  match c with
  | Lt => LESS
  | Eq => on_eq
  | Gt => GREATER
  end.

(** Modelled from the spec: the same comparison seen from the other side
    (dewey.c is missing). *)
Definition reverse (o : ordering) : ordering :=
  match o with
  | LESS => GREATER
  | EQUAL => EQUAL
  | GREATER => LESS
  end.

(** Modelled from the spec: how an exhausted component sequence compares
    with a sequence that goes on with component [c]: it is LESS, unless
    [c] is a suffix of letters, which ranks below the absence of a suffix
    (dewey.c is missing). *)
Definition exhausted_against (c : component) : ordering :=
  match c with
  | TextRun t => if letters_only t then GREATER else LESS
  | IntRun _ => LESS
  end.

(** Modelled from the spec: the lockstep walk of section 4.1 (dewey.c is
    missing). *)
Fixpoint compare_components (a b : list component) : ordering :=
  match a, b with
  | [], [] => EQUAL
  | [], c :: _ => exhausted_against c
  | c :: _, [] => reverse (exhausted_against c)
  | IntRun x :: a', IntRun y :: b' =>
      of_comparison (digits_value x ?= digits_value y)%N
                    (compare_components a' b')
  | TextRun x :: a', TextRun y :: b' =>
      of_comparison (String.compare x y) (compare_components a' b')
  | IntRun _ :: _, TextRun _ :: _ => GREATER
  | TextRun _ :: _, IntRun _ :: _ => LESS
  end.

(** Modelled from the spec: [compareVersions] of section 6 (dewey.c is
    missing). *)
Definition compareVersions (a b : string) : ordering :=
  compare_components (tokenize a) (tokenize b).

End VersionComparator.

Module PatternMatcher.

Import VersionComparator.

(** Modelled from the spec: the operators of a ConstraintTerm, section 3
    (the pattern code, opattern.c of pkg_install, is not part of this
    file). *)
Inductive operator : Set := lt | le | gt | ge | eq.

(** Modelled from the spec: a ConstraintTerm, an operator and the version
    it compares with, kept as its string (opattern.c is missing). *)
Record ConstraintTerm : Set := Term {
  term_op : operator;
  term_version : string
}.

(** Modelled from the spec: the Pattern of section 3; an alternation is the
    list of its members (opattern.c is not part of this file). *)
Inductive alternative : Set :=
| Glob (template : string)
| Dewey (name : string) (terms : list ConstraintTerm).

(** Modelled from the spec: the outcome of parsing, a ParseError or a
    result (opattern.c is missing). *)
Inductive parsed (A : Type) : Type :=
| ParseError
| Parsed (a : A).

Arguments ParseError {A}.
Arguments Parsed {A} a.

(** Modelled from the spec: the bytes that relational operators are made
    of (opattern.c is missing). *)
Definition is_operator_char (c : ascii) : bool :=
  Ascii.eqb c "<" || Ascii.eqb c ">" || Ascii.eqb c "=".

(** Modelled from the spec: the glob wildcards (opattern.c is missing). *)
Definition is_wildcard (c : ascii) : bool :=
  Ascii.eqb c "*" || Ascii.eqb c "?".

(** Modelled from the spec: "contains" a byte of some kind (opattern.c is
    missing). *)
Fixpoint has_char (f : ascii → bool) (s : string) : bool :=
  match s with
  | EmptyString => false
  | String c rest => f c || has_char f rest
  end.

(** Modelled from the spec: splitting at the disjunction marker [|]
    (opattern.c is missing). *)
Fixpoint split_alternatives (s : string) : list string :=
  match s with
  | EmptyString => [EmptyString]
  | String c rest =>
      if Ascii.eqb c "|" then EmptyString :: split_alternatives rest
      else match split_alternatives rest with
           | [] => [String c EmptyString]
           | a :: alts => String c a :: alts
           end
  end.

(** Modelled from the spec: the name prefix in front of the first operator
    character, and the rest (opattern.c is missing). *)
Fixpoint split_name (s : string) : string * string :=
  match s with
  | EmptyString => (EmptyString, EmptyString)
  | String c rest =>
      if is_operator_char c then (EmptyString, s)
      else let '(n, r) := split_name rest in (String c n, r)
  end.

(** Modelled from the spec: the rest of an alternative cut into maximal
    runs of operator characters ([true]) and of other characters
    ([false]), from which the (operator, version) pairs are read
    (opattern.c is missing). *)
Fixpoint operator_runs (s : string) : list (bool * string) :=
  match s with
  | EmptyString => []
  | String c rest =>
      match is_operator_char c, operator_runs rest with
      | true, (true, o) :: rs => (true, String c o) :: rs
      | false, (false, v) :: rs => (false, String c v) :: rs
      | k, rs => (k, String c EmptyString) :: rs
      end
  end.

(** Modelled from the spec: the operator tokens [<], [<=], [>], [>=] and
    [==]; anything else is unrecognized (opattern.c is missing). *)
Definition operator_of (tok : string) : option operator :=
  if String.eqb tok "<" then Some lt
  else if String.eqb tok "<=" then Some le
  else if String.eqb tok ">" then Some gt
  else if String.eqb tok ">=" then Some ge
  else if String.eqb tok "==" then Some eq
  else None.

(** Modelled from the spec: parsing of (operator, version) pairs until the
    string is consumed; an unrecognized operator or an operator without a
    version is a ParseError (opattern.c is missing). *)
Fixpoint parse_terms (rs : list (bool * string)) : parsed (list ConstraintTerm) :=
  match rs with
  | [] => Parsed []
  | (true, tok) :: (false, v) :: rs' =>
      match operator_of tok, parse_terms rs' with
      | Some o, Parsed ts => Parsed (Term o v :: ts)
      | _, _ => ParseError
      end
  | _ => ParseError
  end.

(** Modelled from the spec: the kind of one alternative, section 4.2
    (opattern.c is missing). *)
Definition parse_alternative (s : string) : parsed alternative :=
  match s with
  | EmptyString => ParseError
  | _ =>
      if has_char is_wildcard s && negb (has_char is_operator_char s)
      then Parsed (Glob s)
      else
        let '(n, r) := split_name s in
        match parse_terms (operator_runs r) with
        | Parsed ts => Parsed (Dewey n ts)
        | ParseError => ParseError
        end
  end.

(** Modelled from the spec: all alternatives have to parse (opattern.c is
    missing). *)
Fixpoint parse_all (alts : list string) : parsed (list alternative) :=
  match alts with
  | [] => Parsed []
  | a :: rest =>
      match parse_alternative a, parse_all rest with
      | Parsed x, Parsed xs => Parsed (x :: xs)
      | _, _ => ParseError
      end
  end.

(** Modelled from the spec: parsing of a constraint string into its
    alternatives (opattern.c is missing). *)
Definition parsePattern (pattern : string) : parsed (list alternative) :=
  parse_all (split_alternatives pattern).

(** Modelled from the spec: a version-looking suffix starts with a digit
    (opattern.c is missing). *)
Definition starts_with_digit (s : string) : bool :=
  match s with
  | EmptyString => false
  | String c _ => is_digit c
  end.

(** Modelled from the spec: the split at the last [-] that is followed by a
    digit, if there is one (opattern.c is missing). *)
Fixpoint split_at_version (s : string) : option (string * string) :=
  match s with
  | EmptyString => None
  | String c rest =>
      match split_at_version rest with
      | Some (n, v) => Some (String c n, v)
      | None =>
          if Ascii.eqb c "-" && starts_with_digit rest
          then Some (EmptyString, rest)
          else None
      end
  end.

(** Modelled from the spec: the PackageIdentifier of section 3, name and
    version of a full package string (opattern.c is missing). *)
Definition decompose (candidate : string) : string * string :=
  match split_at_version candidate with
  | Some nv => nv
  | None => (candidate, EmptyString)
  end.

(** Modelled from the spec: which comparison results satisfy which
    operator, section 4.2 (opattern.c is missing). *)
Definition satisfies (o : operator) (r : ordering) : bool :=
  match o, r with
  | lt, LESS => true
  | le, (LESS | EQUAL) => true
  | gt, GREATER => true
  | ge, (GREATER | EQUAL) => true
  | eq, EQUAL => true
  | _, _ => false
  end.

(** Modelled from the spec: anchored glob matching with [*] and [?]
    (opattern.c is missing). *)
Fixpoint glob (template : string) : string → bool :=
  match template with
  | EmptyString => λ s, match s with EmptyString => true | _ => false end
  | String t template' =>
      if Ascii.eqb t "*" then
        fix star (s : string) : bool :=
          glob template' s
          || match s with
             | EmptyString => false
             | String _ s' => star s'
             end
      else if Ascii.eqb t "?" then
        λ s, match s with
             | EmptyString => false
             | String _ s' => glob template' s'
             end
      else
        λ s, match s with
             | EmptyString => false
             | String c s' => Ascii.eqb t c && glob template' s'
             end
  end.

(** Modelled from the spec: evaluation of one alternative against the
    candidate, section 4.2 (opattern.c is missing). *)
Definition match_alternative (candidate : string) (a : alternative) : bool :=
  match a with
  | Glob template => glob template candidate
  | Dewey name terms =>
      let '(n, v) := decompose candidate in
      String.eqb n name
      && forallb (λ t, satisfies (term_op t)
                         (compareVersions v (term_version t))) terms
  end.

(** Modelled from the spec: [matchPattern] of section 6; a pattern that does
    not parse is a [ParseError], never a boolean (opattern.c is missing). *)
Definition matchPattern (pattern candidate : string) : parsed bool :=
  match parsePattern pattern with
  | ParseError => ParseError
  | Parsed alts => Parsed (existsb (match_alternative candidate) alts)
  end.

(** Modelled from the spec: the matcher of the specification behind the
    prototype [int pkg_match(const char *, const char * )] (the function is
    only declared here).  An [int] is all the driver gets, so a parse
    failure has to come back as some number [on_error]. *)
Definition pkg_match_int (on_error : Z) (pattern pkg : string) : Z :=
  match matchPattern pattern pkg with
  | ParseError => on_error
  | Parsed true => 1
  | Parsed false => 0
  end.

End PatternMatcher.

(** ** The driver *)

(** What the operating system hands to the program: the argument vector
    ([argc] is its length) and, for every path, the bytes that
    [fopen(path, "r")] gives access to, or [None] when the file cannot be
    opened. *)
Record env : Type := Env {
  argv : list string;
  fopen : string → option (list ascii)
}.

(** What the program does to the outside world, in order. *)
Inductive event : Type :=
| EStderr (text : string)
| EFopen (path : string) (opened : bool)
| EFgetln (line : list ascii)
| EFclose
| EStdout (text : string).

Definition stdout_of (trace : list event) : list string :=
  omap (λ ev, match ev with EStdout s => Some s | _ => None end) trace.

Definition stderr_of (trace : list event) : list string :=
  omap (λ ev, match ev with EStderr s => Some s | _ => None end) trace.

Definition lines_read (trace : list event) : list (list ascii) :=
  omap (λ ev, match ev with EFgetln l => Some l | _ => None end) trace.

Definition usage : string :=
  "usage: test-pkgmatch <pkgdeps.txt> <pkgnames.txt>".

(** The text written by [printf("%s %s\n", dep, pkg)]. *)
Definition print_match (dep pkg : string) : string :=
  dep +:+ " " +:+ pkg +:+ String LF EmptyString.

(** A [char *] passed where a string is read. *)
Definition string_at (c : cell) : result string :=
  match c with
  | Str s => Ok s
  | Null => Undefined NullArgument
  | Indet => Undefined ReadIndeterminate
  end.

(** The variables of the matching phase (lines 87-98) and what it has
    printed so far. *)
Record matching : Type := Matching {
  m_deps : list cell;
  m_pkgs : list cell;
  m_d : Z;
  m_p : Z;
  m_stdout : list string
}.

Section Driver.

(** [extern int pkg_match(const char *, const char * )]: a function of the
    two strings it is given. *)
Variable pkg_match : string → string → Z.

(** The body of the inner loop:
    [if (pkg_match(deps[d], pkgs[p])) printf(...); p++;] *)
Definition match_step (st : matching) : result matching :=
  dep ← load (m_deps st) (m_d st) ≫= string_at;
  pkg ← load (m_pkgs st) (m_p st) ≫= string_at;
  let printed :=
    if decide (pkg_match dep pkg ≠ 0)
    then m_stdout st ++ [print_match dep pkg]
    else m_stdout st in
  p ← int_incr (m_p st);
  Ok (Matching (m_deps st) (m_pkgs st) (m_d st) p printed).

(** [while (pkgs[p] != NULL) { ... }] *)
Fixpoint inner_loop (fuel : nat) (st : matching) : result matching :=
  match fuel with
  | O => OutOfFuel
  | S fuel' =>
      c ← load (m_pkgs st) (m_p st);
      match c with
      | Null => Ok st
      | _ => st' ← match_step st; inner_loop fuel' st'
      end
  end.

(** The body of the outer loop: [p = 0; while ... ; d++;] *)
Definition outer_step (st : matching) : result matching :=
  st' ← inner_loop (S (length (m_pkgs st)))
          (Matching (m_deps st) (m_pkgs st) (m_d st) 0 (m_stdout st));
  d ← int_incr (m_d st');
  Ok (Matching (m_deps st') (m_pkgs st') d (m_p st') (m_stdout st')).

(** [while (deps[d] != NULL) { ... }] *)
Fixpoint outer_loop (fuel : nat) (st : matching) : result matching :=
  match fuel with
  | O => OutOfFuel
  | S fuel' =>
      c ← load (m_deps st) (m_d st);
      match c with
      | Null => Ok st
      | _ => st' ← outer_step st; outer_loop fuel' st'
      end
  end.

(** Lines 87-98: [d = 0;] and the two nested loops.  Each loop advances its
    index by one per iteration and stops at the latest when the index
    leaves the array, so the length of the array plus one is fuel enough. *)
Definition match_phase (deps pkgs : list cell) (p : Z) : result matching :=
  outer_loop (S (length deps)) (Matching deps pkgs 0 p []).

(** [main]: the exit status and the trace of the run. *)
Definition main (e : env) : result (Z * list event) :=
  if decide (Z.of_nat (length (argv e)) ≠ 3)
  then Ok (1, [EStderr usage])
  else
    match argv e !! 1%nat, argv e !! 2%nat with
    | Some path1, Some path2 =>
        match fopen e path1, fopen e path2 with
        | Some dbytes, Some pbytes =>
            ds ← read_file dbytes;
            ps ← read_file pbytes;
            st ← match_phase (arr ds) (arr ps) (cnt ps);
            Ok (0, [EFopen path1 true; EFopen path2 true]
                   ++ (EFgetln <$> file_lines dbytes)
                   ++ (EFgetln <$> file_lines pbytes)
                   ++ [EFclose; EFclose]
                   ++ (EStdout <$> m_stdout st))
        | dfd, pfd =>
            Ok (1, [EFopen path1 (bool_decide (is_Some dfd));
                    EFopen path2 (bool_decide (is_Some pfd))])
        end
    | _, _ => Undefined OutOfBounds
    end.

End Driver.

(** ** Reading past a line

    [fgetln] hands out a pointer into the buffer of the stream and a
    length: the line is not a C string.  When a line holds no NUL byte once
    its newline has been replaced, [strdup(dep)] goes on reading behind it.
    C leaves that undefined, and [insert_line] above stops there.  On a
    machine the read runs on into the bytes that follow the line in memory
    and ends at the first NUL among them.  The functions below are the same
    code with those bytes, [behind], made explicit. *)

(** The loop body once [strdup] has returned [s]:
    [deps[d++] = s; if (d == dsize) { dsize *= 2; deps = xrealloc(...); }] *)
Definition store_string (st : growarr) (s : string) : result growarr :=
  a ← store (arr st) (cnt st) (Str s);
  d ← int_incr (cnt st);
  if decide (size_of_int d = cap st)
  then
    let dsize := size_mul (cap st) 2 in
    Ok (GrowArr (xrealloc a (size_mul dsize sizeof_ptr)) d dsize)
  else Ok (GrowArr a d (cap st)).

(** One iteration of the loop body when the bytes [behind] follow the line
    in memory: [strdup] reads the line and then them. *)
Definition insert_line_mem (behind : list ascii)
    (st : growarr) (dep : list ascii) : result growarr :=
  buf ← chomp dep;
  s ← strdup (buf ++ behind);
  store_string st s.

Fixpoint read_loop_mem (behind : list ascii)
    (st : growarr) (fp : list (list ascii)) : result growarr :=
  match fp with
  | [] => Ok st
  | dep :: fp' => st' ← insert_line_mem behind st dep; read_loop_mem behind st' fp'
  end.

Definition read_file_mem (behind : list ascii) (bytes : list ascii)
    : result growarr :=
  st ← read_loop_mem behind read_init (file_lines bytes);
  terminate st.

(** [main] on a machine where [behind_deps] follows the lines of the first
    file in memory and [behind_pkgs] those of the second. *)
Definition main_mem (pkg_match : string → string → Z)
    (behind_deps behind_pkgs : list ascii) (e : env)
    : result (Z * list event) :=
  if decide (Z.of_nat (length (argv e)) ≠ 3)
  then Ok (1, [EStderr usage])
  else
    match argv e !! 1%nat, argv e !! 2%nat with
    | Some path1, Some path2 =>
        match fopen e path1, fopen e path2 with
        | Some dbytes, Some pbytes =>
            ds ← read_file_mem behind_deps dbytes;
            ps ← read_file_mem behind_pkgs pbytes;
            st ← match_phase pkg_match (arr ds) (arr ps) (cnt ps);
            Ok (0, [EFopen path1 true; EFopen path2 true]
                   ++ (EFgetln <$> file_lines dbytes)
                   ++ (EFgetln <$> file_lines pbytes)
                   ++ [EFclose; EFclose]
                   ++ (EStdout <$> m_stdout st))
        | dfd, pfd =>
            Ok (1, [EFopen path1 (bool_decide (is_Some dfd));
                    EFopen path2 (bool_decide (is_Some pfd))])
        end
    | _, _ => Undefined OutOfBounds
    end.

(** ** Vocabulary of the statements *)

(** The bytes of a buffer in front of its first NUL (all of them when it
    has none), as a C string. *)
Fixpoint until_nul (buf : list ascii) : string :=
  match buf with
  | [] => EmptyString
  | c :: rest =>
      if Ascii.eqb c NUL then EmptyString else String c (until_nul rest)
  end.

(** A line with a single trailing newline removed if present, and otherwise
    unchanged. *)
Definition without_newline (line : list ascii) : list ascii :=
  if decide (last line = Some LF)
  then take (length line - 1)%nat line
  else line.

(** What a reading loop keeps of a line. *)
Definition kept_of_line (line : list ascii) : string :=
  until_nul (without_newline line).

(** A line on which [strdup] stops inside the line: it ends in a newline
    (which the loop turns into a NUL) or holds a NUL byte. *)
Definition terminated (line : list ascii) : Prop :=
  last line = Some LF ∨ NUL ∈ line.

#[global] Instance terminated_dec line : Decision (terminated line).
Proof. unfold terminated. apply _. Defined.

(** The C strings an array points to, up to its first entry that is not a
    string. *)
Fixpoint strings_of (a : list cell) : list string :=
  match a with
  | Str s :: a' => s :: strings_of a'
  | _ => []
  end.

(** An array holding the strings [ss] followed by a NULL entry. *)
Definition null_terminated (ss : list string) (a : list cell) : Prop :=
  ∃ rest, a = (Str <$> ss) ++ Null :: rest.

(** The lines printed for one constraint: its matches among [pkgs], in the
    order of [pkgs]. *)
Definition matches_of (pkg_match : string → string → Z)
    (dep : string) (pkgs : list string) : list string :=
  print_match dep <$> filter (λ pkg, pkg_match dep pkg ≠ 0) pkgs.

(** The lines printed for the constraints [deps], one group after the
    other. *)
Definition match_lines (pkg_match : string → string → Z)
    (deps pkgs : list string) : list string :=
  deps ≫= λ dep, matches_of pkg_match dep pkgs.

(** Order on positions (index of the constraint, index of the package):
    first by constraint, then by package. *)
Definition lex_lt (a b : nat * nat) : Prop :=
  (a.1 < b.1)%nat ∨ (a.1 = b.1 ∧ (a.2 < b.2)%nat).

(** The positions of the matches of the constraint at index [i] among
    [pkgs], whose first element has index [j]. *)
Fixpoint row_positions (pkg_match : string → string → Z)
    (dep : string) (i j : nat) (pkgs : list string) : list (nat * nat) :=
  match pkgs with
  | [] => []
  | pkg :: pkgs' =>
      (if decide (pkg_match dep pkg ≠ 0) then [(i, j)] else [])
      ++ row_positions pkg_match dep i (S j) pkgs'
  end.

(** The positions of all matches, for constraints [deps] whose first element
    has index [i]. *)
Fixpoint positions_from (pkg_match : string → string → Z)
    (i : nat) (deps pkgs : list string) : list (nat * nat) :=
  match deps with
  | [] => []
  | dep :: deps' =>
      row_positions pkg_match dep i 0 pkgs
      ++ positions_from pkg_match (S i) deps' pkgs
  end.

(** What can be seen of a run from outside: the exit status and what went
    to standard output and to standard error. *)
Definition observable (r : result (Z * list event))
    : result (Z * list string * list string) :=
  r ≫= λ '(status, trace), Ok (status, stdout_of trace, stderr_of trace).

(** The invariant of a reading loop that has stored the strings [ss]. *)
Record read_inv (ss : list string) (st : growarr) : Prop := ReadInv {
  inv_cnt : cnt st = Z.of_nat (length ss);
  inv_len : Z.of_nat (length (arr st)) = cap st;
  inv_lt : cnt st < cap st;
  inv_max : cnt st ≤ INT_MAX;
  inv_pow : ∃ k : nat, cap st = 32768 * 2 ^ Z.of_nat k;
  inv_tight : cap st = INITIAL_SIZE ∨ cap st ≤ 2 * cnt st;
  inv_arr : take (length ss) (arr st) = Str <$> ss
}.

(** The claim that every line is stored as it stands, but for its trailing
    newline: the reading phase completes and leaves the strings below. *)
Definition stored_unchanged (bytes : list ascii) : Prop :=
  ∃ st,
    read_file bytes = Ok st
    ∧ null_terminated
        ((λ line, string_of_list_ascii (without_newline line))
           <$> file_lines bytes)
        (arr st).

(** ** Sample inputs *)

(** A text file: every line followed by a newline. *)
Definition text (lines : list string) : list ascii :=
  lines ≫= λ l, list_ascii_of_string l ++ [LF].

(** A file system with a dependency file and a package file, and the
    command line that names them. *)
Definition sample_fs (deps pkgs : list ascii) (path : string)
    : option (list ascii) :=
  if String.eqb path "pkgdeps.txt" then Some deps
  else if String.eqb path "pkgnames.txt" then Some pkgs
  else None.

Definition sample_env (deps pkgs : list ascii) : env :=
  Env ["test-pkgmatch"; "pkgdeps.txt"; "pkgnames.txt"] (sample_fs deps pkgs).

Definition sample_deps : list string := ["foo>=1.0"; "bar<2"; "foo>="].
Definition sample_pkgs : list string := ["foo-1.5"; "bar-1.0"; "foo-0.1"].

(** The state of a reading loop that has stored [ss] in its first array,
    and the state once the terminator is in place. *)
Definition sample_loop_state (ss : list string) : growarr :=
  GrowArr ((Str <$> ss) ++ replicate (Z.to_nat 32768 - length ss) Indet)
          (Z.of_nat (length ss)) 32768.

Definition sample_read_state (ss : list string) : growarr :=
  GrowArr ((Str <$> ss) ++ Null :: replicate (Z.to_nat 32767 - length ss) Indet)
          (Z.of_nat (length ss)) 32768.

(** The run on one constraint [c] followed by [foo>=1.0], against the single
    package [foo-1.0], with a matcher that answers [on_error] when the
    pattern does not parse. *)
Definition run_with_constraint (on_error : Z) (c : string)
    : result (Z * list string * list string) :=
  observable
    (main (PatternMatcher.pkg_match_int on_error)
       (sample_env (text [c; "foo>=1.0"]) (text ["foo-1.0"]))).

(** ** Lines *)

Lemma file_lines_nonempty bytes : Forall (λ l, l ≠ []) (file_lines bytes).
Proof.
  induction bytes as [|c rest IH]; simpl; [constructor|].
  destruct (Ascii.eqb c LF); [by constructor|].
  destruct (file_lines rest) as [|l ls]; [by repeat constructor|].
  inversion IH; subst. by constructor.
Qed.

Lemma file_lines_concat bytes : concat (file_lines bytes) = bytes.
Proof.
  induction bytes as [|c rest IH]; simpl; [done|].
  destruct (Ascii.eqb c LF); simpl; [by rewrite IH|].
  destruct (file_lines rest) as [|l ls]; simpl in *; by rewrite <- IH.
Qed.

(** Inside a line, a newline can only be the last byte. *)
Lemma file_lines_newline_last bytes :
  Forall (λ l, ∀ i, l !! i = Some LF → S i = length l) (file_lines bytes).
Proof.
  induction bytes as [|c rest IH]; simpl; [constructor|].
  destruct (Ascii.eqb_spec c LF) as [->|Hc].
  - constructor; [|done]. intros [|i] Hi; [done|]. by destruct i.
  - destruct (file_lines rest) as [|l ls].
    + repeat constructor. intros [|i] Hi; simpl in Hi; [congruence|by destruct i].
    + inversion IH as [|? ? Hl Hls]; subst. constructor; [|done].
      intros [|i] Hi; simpl in *; [congruence|]. f_equal. by apply Hl.
Qed.

(** Every line but the last one ends in a newline. *)
Lemma file_lines_init_newline bytes ls l :
  file_lines bytes = ls ++ [l] → Forall (λ l', last l' = Some LF) ls.
Proof.
  revert ls l. induction bytes as [|c rest IH]; intros ls l; simpl.
  - by destruct ls.
  - destruct (Ascii.eqb_spec c LF) as [->|Hc].
    + destruct ls as [|l0 ls]; simpl; [constructor|].
      intros [= <- Hrest]. constructor; [done|]. by eapply IH.
    + destruct (file_lines rest) as [|l1 ls1] eqn:Hrest.
      * destruct ls as [|l0 ls]; [constructor|].
        simpl. intros [= _ H]. by destruct ls.
      * destruct ls as [|l0 ls]; simpl; [constructor|].
        intros [= <- Hls]. subst ls1.
        specialize (IH (l1 :: ls) l eq_refl).
        inversion IH as [|? ? Hl1 Hrest']; subst. constructor; [|done].
        destruct l1; [done|]. by rewrite last_cons, Hl1.
Qed.

(** ** [strdup] and the newline replacement *)

Lemma until_nul_app_nul a rest : until_nul (a ++ NUL :: rest) = until_nul a.
Proof.
  induction a as [|c a IH]; simpl; [done|].
  destruct (Ascii.eqb c NUL); [done|]. by rewrite IH.
Qed.

Lemma strdup_until_nul buf : NUL ∈ buf → strdup buf = Ok (until_nul buf).
Proof.
  induction buf as [|c buf IH]; intros Hin; [by apply elem_of_nil in Hin|].
  simpl. destruct (Ascii.eqb_spec c NUL) as [->|Hc]; [done|].
  apply elem_of_cons in Hin as [Heq|Hin]; [congruence|].
  by rewrite IH.
Qed.

Lemma strdup_no_nul buf : NUL ∉ buf → strdup buf = Undefined ReadPastLine.
Proof.
  induction buf as [|c buf IH]; intros Hnin; [done|].
  apply not_elem_of_cons in Hnin as [Hc Hnin]. simpl.
  destruct (Ascii.eqb_spec c NUL) as [->|_]; [done|].
  by rewrite IH.
Qed.

Lemma chomp_newline line :
  last line = Some LF →
  chomp line = Ok (take (length line - 1)%nat line ++ [NUL]).
Proof.
  intros Hlast. unfold chomp.
  destruct (length line) as [|k] eqn:Hlen; [by destruct line|].
  rewrite last_lookup, Hlen in Hlast. simpl in Hlast.
  rewrite decide_True by done. f_equal.
  rewrite insert_take_drop by lia.
  rewrite (drop_ge line (S k)) by lia.
  by replace (S k - 1)%nat with k by lia.
Qed.

Lemma chomp_other line :
  line ≠ [] → last line ≠ Some LF → chomp line = Ok line.
Proof.
  intros Hne Hlast. unfold chomp.
  destruct (length line) as [|k] eqn:Hlen; [by destruct line|].
  rewrite last_lookup, Hlen in Hlast. simpl in Hlast.
  by rewrite decide_False.
Qed.

(** What the first two statements of the loop body make of a line. *)
Lemma chomp_strdup line :
  line ≠ [] →
  chomp line ≫= strdup =
    if decide (terminated line) then Ok (kept_of_line line)
    else Undefined ReadPastLine.
Proof.
  intros Hne. unfold kept_of_line, without_newline, terminated.
  destruct (decide (last line = Some LF)) as [Hlast|Hlast].
  - rewrite chomp_newline by done. rewrite decide_True by auto. simpl.
    rewrite strdup_until_nul by (apply elem_of_app; right; by left).
    by rewrite until_nul_app_nul.
  - rewrite chomp_other by done. simpl.
    destruct (decide (NUL ∈ line)) as [Hin|Hnin].
    + rewrite decide_True by auto. by apply strdup_until_nul.
    + rewrite decide_False by tauto. by apply strdup_no_nul.
Qed.

(** ** The reading loop keeps its invariant *)

Lemma size_mul_small a b :
  0 ≤ a * b < 2 ^ 64 → size_mul a b = a * b.
Proof. intros H. unfold size_mul, SIZE_MODULUS. by apply Z.mod_small. Qed.

Lemma size_of_int_small i : 0 ≤ i ≤ INT_MAX → size_of_int i = i.
Proof.
  unfold size_of_int, SIZE_MODULUS, INT_MAX. intros H.
  apply Z.mod_small. change (2 ^ 64) with 18446744073709551616.
  change (2 ^ 31) with 2147483648 in H. lia.
Qed.

Lemma read_inv_cap_bound ss st : read_inv ss st → 0 < cap st < 2 ^ 32.
Proof.
  intros [Hcnt Hlen Hlt Hmax _ Htight _].
  unfold INT_MAX, INITIAL_SIZE in *.
  change (2 ^ 31) with 2147483648 in Hmax.
  change (2 ^ 32) with 4294967296. lia.
Qed.

Lemma read_init_inv : read_inv [] read_init.
Proof.
  unfold read_init. split; cbn [arr cnt cap length fmap list_fmap take].
  - done.
  - unfold xmalloc. rewrite length_replicate. by vm_compute.
  - done.
  - by vm_compute.
  - by exists 0%nat.
  - by left.
  - done.
Qed.

Lemma xrealloc_grow a size :
  Z.of_nat (length a) ≤ size / sizeof_ptr →
  xrealloc a size = a ++ replicate (Z.to_nat (size / sizeof_ptr) - length a) Indet
  ∧ Z.of_nat (length (xrealloc a size)) = size / sizeof_ptr.
Proof.
  intros Hle. unfold xrealloc. cbv zeta. rewrite take_ge by lia.
  split; [done|].
  rewrite length_app, length_replicate. lia.
Qed.

Lemma take_store_snoc (a : list cell) (ss : list string) s :
  (length ss < length a)%nat →
  take (length ss) a = Str <$> ss →
  take (length (ss ++ [s])) (<[length ss := Str s]> a) = Str <$> (ss ++ [s]).
Proof.
  intros Hlt Htake. rewrite length_app. simpl.
  replace (length ss + 1)%nat with (S (length ss)) by lia.
  rewrite (take_S_r _ _ (Str s)) by (by apply list_lookup_insert_eq).
  rewrite take_insert_ge by lia. by rewrite Htake, fmap_app.
Qed.

(** One completed insertion: the line was usable, the string kept is the
    one described, and the invariant holds again, with the capacity doubled
    exactly when the new count reached it. *)
Lemma insert_line_inv ss st dep st' :
  read_inv ss st →
  insert_line st dep = Ok st' →
  dep ≠ [] ∧ terminated dep
  ∧ read_inv (ss ++ [kept_of_line dep]) st'
  ∧ cnt st' = cnt st + 1
  ∧ cap st' = (if decide (cnt st + 1 = cap st) then 2 * cap st else cap st).
Proof.
  intros Hinv Hins.
  pose proof (read_inv_cap_bound _ _ Hinv) as Hcap.
  destruct Hinv as [Hcnt Hlen Hlt Hmax [k Hpow] Htight Harr].
  destruct (decide (dep = [])) as [->|Hne]; [done|].
  unfold insert_line in Hins.
  pose proof (chomp_strdup dep Hne) as Hcs.
  destruct (chomp dep) as [buf| |]; simpl in Hins, Hcs; try done.
  rewrite Hcs in Hins. clear Hcs.
  destruct (decide (terminated dep)) as [Hterm|]; [|done].
  simpl in Hins. unfold store in Hins.
  rewrite decide_True in Hins by lia. simpl in Hins.
  unfold int_incr in Hins.
  destruct (decide (cnt st < INT_MAX)) as [Hd|]; [|done]. simpl in Hins.
  rewrite size_of_int_small in Hins by lia.
  assert (Z.to_nat (cnt st) = length ss) as Hidx by lia.
  rewrite Hidx in Hins.
  assert (length ss < length (arr st))%nat as Hslot by lia.
  pose proof (take_store_snoc _ _ (kept_of_line dep) Hslot Harr) as Htake.
  change (2 ^ 32) with 4294967296 in Hcap.
  split; [done|]. split; [done|].
  destruct (decide (cnt st + 1 = cap st)) as [Hfull|Hroom].
  - rewrite (size_mul_small (cap st) 2) in Hins
      by (change (2 ^ 64) with 18446744073709551616; lia).
    rewrite size_mul_small in Hins
      by (unfold sizeof_ptr; change (2 ^ 64) with 18446744073709551616; lia).
    assert (cap st * 2 * sizeof_ptr / sizeof_ptr = cap st * 2) as Hdiv
      by (by apply Z.div_mul).
    destruct (xrealloc_grow (<[length ss := Str (kept_of_line dep)]> (arr st))
                (cap st * 2 * sizeof_ptr)) as [Hgrow Hglen].
    { rewrite Hdiv, length_insert. lia. }
    injection Hins as <-. cbn [arr cnt cap].
    split; [|split; [done | lia]].
    split; cbn [arr cnt cap].
    + rewrite length_app. simpl. lia.
    + by rewrite Hglen, Hdiv.
    + lia.
    + lia.
    + exists (S k). rewrite Nat2Z.inj_succ, Z.pow_succ_r by lia. lia.
    + right. lia.
    + rewrite Hgrow. rewrite take_app_le; [done|].
      rewrite length_insert, length_app. simpl. lia.
  - injection Hins as <-. cbn [arr cnt cap].
    split; [|split; [done | done]].
    split; cbn [arr cnt cap].
    + rewrite length_app. simpl. lia.
    + by rewrite length_insert.
    + lia.
    + lia.
    + by exists k.
    + destruct Htight as [Hi|Ht]; [by left | right; lia].
    + done.
Qed.

Lemma read_loop_inv fp : ∀ ss st st',
  read_inv ss st →
  read_loop st fp = Ok st' →
  Forall (λ l, l ≠ [] ∧ terminated l) fp
  ∧ read_inv (ss ++ (kept_of_line <$> fp)) st'.
Proof.
  induction fp as [|dep fp IH]; intros ss st st' Hinv Hloop; simpl in Hloop.
  - injection Hloop as <-. split; [constructor|].
    by rewrite fmap_nil, app_nil_r.
  - destruct (insert_line st dep) as [st1| |] eqn:Hins; simpl in Hloop; try done.
    destruct (insert_line_inv _ _ _ _ Hinv Hins) as (Hne & Hterm & Hinv1 & _).
    destruct (IH _ _ _ Hinv1 Hloop) as [Hall Hinv'].
    split; [by constructor|].
    by rewrite fmap_cons, cons_middle, (assoc (++)).
Qed.

(** An insertion completes on every usable line as long as the count can
    still be incremented. *)
Lemma insert_line_complete ss st dep :
  read_inv ss st → dep ≠ [] → terminated dep → cnt st < INT_MAX →
  ∃ st', insert_line st dep = Ok st'.
Proof.
  intros Hinv Hne Hterm Hd.
  destruct Hinv as [Hcnt Hlen Hlt Hmax _ _ _].
  unfold insert_line.
  pose proof (chomp_strdup dep Hne) as Hcs.
  rewrite decide_True in Hcs by done.
  destruct (chomp dep) as [buf| |]; simpl in Hcs; try done.
  simpl. rewrite Hcs. simpl. unfold store.
  rewrite decide_True by lia. simpl.
  unfold int_incr. rewrite decide_True by done. simpl.
  destruct (decide (size_of_int (cnt st + 1) = cap st)); eauto.
Qed.

Lemma read_loop_complete fp : ∀ ss st,
  read_inv ss st →
  Forall (λ l, l ≠ [] ∧ terminated l) fp →
  cnt st + Z.of_nat (length fp) ≤ INT_MAX →
  ∃ st', read_loop st fp = Ok st'.
Proof.
  induction fp as [|dep fp IH]; intros ss st Hinv Hall Hfit; simpl.
  - eauto.
  - inversion Hall as [|? ? [Hne Hterm] Hall']; subst.
    rewrite length_cons in Hfit.
    destruct (insert_line_complete ss st dep) as [st1 Hins]; [done..|lia|].
    rewrite Hins. simpl.
    destruct (insert_line_inv _ _ _ _ Hinv Hins) as (_ & _ & Hinv1 & Hc & _).
    eapply IH; [done..|lia].
Qed.

(** ** The terminator *)

Lemma strings_of_null_terminated ss a :
  null_terminated ss a → strings_of a = ss.
Proof.
  intros [rest ->]. induction ss as [|s ss IH]; [done|].
  rewrite fmap_cons. simpl. by f_equal.
Qed.

Lemma terminate_inv ss st :
  read_inv ss st →
  ∃ st', terminate st = Ok st'
         ∧ null_terminated ss (arr st')
         ∧ cnt st' = Z.of_nat (length ss).
Proof.
  intros [Hcnt Hlen Hlt Hmax _ _ Harr].
  unfold terminate, store. rewrite decide_True by lia. simpl.
  eexists. split; [done|]. cbn [arr cnt]. split; [|done].
  replace (Z.to_nat (cnt st)) with (length ss) by lia.
  exists (drop (S (length ss)) (arr st)).
  rewrite insert_take_drop by lia. by rewrite Harr.
Qed.

(** A completed reading phase: every line was usable, and the array holds
    what the loop keeps of each line, in file order, followed by NULL. *)
Lemma read_file_inv bytes st :
  read_file bytes = Ok st →
  Forall terminated (file_lines bytes)
  ∧ null_terminated (kept_of_line <$> file_lines bytes) (arr st)
  ∧ cnt st = Z.of_nat (length (file_lines bytes))
  ∧ cnt st ≤ INT_MAX.
Proof.
  unfold read_file. intros Hread.
  destruct (read_loop read_init (file_lines bytes)) as [st1| |] eqn:Hloop;
    simpl in Hread; try done.
  destruct (read_loop_inv _ _ _ _ read_init_inv Hloop) as [Hall Hinv].
  rewrite app_nil_l in Hinv.
  destruct (terminate_inv _ _ Hinv) as (st2 & Hterm & Hnull & Hcnt).
  rewrite Hterm in Hread. injection Hread as <-.
  rewrite length_fmap in Hcnt.
  split; [|split; [done|split; [done|]]].
  - eapply Forall_impl; [exact Hall|]. by intros l [_ Hl].
  - destruct Hinv as [Hc _ _ Hmax _ _ _]. rewrite length_fmap in Hc. lia.
Qed.

(** The reading phase completes on every file whose lines are all usable
    and whose line count fits an [int]. *)
Lemma read_file_complete bytes :
  Forall terminated (file_lines bytes) →
  Z.of_nat (length (file_lines bytes)) ≤ INT_MAX →
  ∃ st, read_file bytes = Ok st.
Proof.
  intros Hall Hfit. unfold read_file.
  destruct (read_loop_complete (file_lines bytes) [] read_init) as [st1 Hloop].
  - apply read_init_inv.
  - apply Forall_and. split; [apply file_lines_nonempty | done].
  - simpl. lia.
  - rewrite Hloop. simpl.
    destruct (read_loop_inv _ _ _ _ read_init_inv Hloop) as [_ Hinv].
    destruct (terminate_inv _ _ Hinv) as (st2 & Hterm & _). eauto.
Qed.

(** In a file that ends in a newline (or is empty) every line is usable. *)
Lemma newline_ended_terminated bytes :
  bytes = [] ∨ last bytes = Some LF → Forall terminated (file_lines bytes).
Proof.
  intros Hend.
  destruct (file_lines bytes) as [|l0 ls0] eqn:Hlines using rev_ind;
    [constructor|]. clear IHls0.
  apply Forall_app. split.
  - eapply Forall_impl; [by eapply file_lines_init_newline|].
    intros l Hl. by left.
  - constructor; [|constructor].
    destruct Hend as [->|Hlast]; [by destruct ls0|].
    pose proof (file_lines_concat bytes) as Hcat.
    pose proof (file_lines_nonempty bytes) as Hne.
    rewrite Hlines in Hcat, Hne.
    apply Forall_app in Hne as [_ Hne]. inversion Hne as [|? ? Hl0 _]; subst.
    rewrite concat_app in Hlast. simpl in Hlast.
    rewrite app_nil_r, last_app in Hlast.
    destruct (last l0) as [c|] eqn:Hc; [left; congruence|].
    by apply last_None in Hc.
Qed.

(** ** The matching loops *)

Lemma load_string ss rest (i : nat) s :
  ss !! i = Some s →
  load ((Str <$> ss) ++ Null :: rest) (Z.of_nat i) = Ok (Str s).
Proof.
  intros Hi. unfold load. rewrite decide_True by lia. rewrite Nat2Z.id.
  rewrite lookup_app_l by (rewrite length_fmap; by eapply lookup_lt_Some).
  by rewrite list_lookup_fmap, Hi.
Qed.

Lemma load_null ss rest :
  load ((Str <$> ss) ++ Null :: rest) (Z.of_nat (length ss)) = Ok Null.
Proof.
  unfold load. rewrite decide_True by lia. rewrite Nat2Z.id.
  rewrite lookup_app_r by (by rewrite length_fmap).
  by rewrite length_fmap, Nat.sub_diag.
Qed.

Section Matching.

Variable pkg_match : string → string → Z.

Lemma matches_of_cons dep pkg pkgs :
  matches_of pkg_match dep (pkg :: pkgs) =
    (if decide (pkg_match dep pkg ≠ 0) then [print_match dep pkg] else [])
    ++ matches_of pkg_match dep pkgs.
Proof.
  unfold matches_of. rewrite filter_cons.
  by destruct (decide (pkg_match dep pkg ≠ 0)).
Qed.

(** The inner loop, started at index [length ps1] of a NULL-terminated
    array, walks the remaining strings [ps2] and appends their matches. *)
Lemma inner_loop_spec deps pkgs d dep rest ps2 : ∀ ps1 fuel out,
  pkgs = (Str <$> (ps1 ++ ps2)) ++ Null :: rest →
  load deps d = Ok (Str dep) →
  Z.of_nat (length (ps1 ++ ps2)) ≤ INT_MAX →
  (length ps2 < fuel)%nat →
  inner_loop pkg_match fuel
    (Matching deps pkgs d (Z.of_nat (length ps1)) out) =
  Ok (Matching deps pkgs d (Z.of_nat (length (ps1 ++ ps2)))
        (out ++ matches_of pkg_match dep ps2)).
Proof.
  induction ps2 as [|pkg ps2 IH]; intros ps1 fuel out Hpkgs Hdep Hfit Hfuel;
    (destruct fuel as [|fuel]; [simpl in Hfuel; lia|]);
    cbn [inner_loop m_pkgs m_p].
  - rewrite app_nil_r in *. rewrite Hpkgs, load_null. simpl.
    unfold matches_of. rewrite filter_nil, fmap_nil, app_nil_r.
    by rewrite <- Hpkgs.
  - assert ((ps1 ++ pkg :: ps2) !! length ps1 = Some pkg) as Hlook
      by (by apply list_lookup_middle).
    assert (load pkgs (Z.of_nat (length ps1)) = Ok (Str pkg)) as Hload
      by (rewrite Hpkgs; by apply load_string).
    rewrite Hload. cbn [mbind result_bind].
    unfold match_step. cbn [m_deps m_pkgs m_d m_p m_stdout].
    rewrite Hdep, Hload. cbn [mbind result_bind string_at].
    unfold int_incr. rewrite length_app, length_cons in Hfit.
    rewrite (decide_True (P := Z.of_nat (length ps1) < INT_MAX)) by lia. cbn [mbind result_bind].
    replace (Z.of_nat (length ps1) + 1) with (Z.of_nat (length (ps1 ++ [pkg])))
      by (rewrite length_app; simpl; lia).
    rewrite (IH (ps1 ++ [pkg])).
    + rewrite <- (assoc (++) ps1), <- cons_middle.
      rewrite matches_of_cons.
      destruct (decide (pkg_match dep pkg ≠ 0)); simpl;
        [by rewrite <- (assoc (++) out) | done].
    + by rewrite <- (assoc (++) ps1), <- cons_middle.
    + done.
    + rewrite <- (assoc (++) ps1), <- cons_middle, length_app, length_cons. lia.
    + simpl in Hfuel. lia.
Qed.

(** The outer loop, started at index [length ds1], walks the remaining
    constraints [ds2] and appends one group of matches for each. *)
Lemma outer_loop_spec deps pkgs restd restp ps ds2 : ∀ ds1 fuel p out,
  deps = (Str <$> (ds1 ++ ds2)) ++ Null :: restd →
  pkgs = (Str <$> ps) ++ Null :: restp →
  Z.of_nat (length (ds1 ++ ds2)) ≤ INT_MAX →
  Z.of_nat (length ps) ≤ INT_MAX →
  (length ds2 < fuel)%nat →
  ∃ p',
    outer_loop pkg_match fuel
      (Matching deps pkgs (Z.of_nat (length ds1)) p out) =
    Ok (Matching deps pkgs (Z.of_nat (length (ds1 ++ ds2))) p'
          (out ++ match_lines pkg_match ds2 ps)).
Proof.
  induction ds2 as [|dep ds2 IH];
    intros ds1 fuel p out Hdeps Hpkgs Hdfit Hpfit Hfuel;
    (destruct fuel as [|fuel]; [simpl in Hfuel; lia|]);
    cbn [outer_loop m_deps m_d].
  - rewrite app_nil_r in *. exists p.
    rewrite Hdeps at 1. rewrite load_null. simpl.
    unfold match_lines. simpl. by rewrite app_nil_r.
  - assert ((ds1 ++ dep :: ds2) !! length ds1 = Some dep) as Hlook
      by (by apply list_lookup_middle).
    assert (load deps (Z.of_nat (length ds1)) = Ok (Str dep)) as Hload
      by (rewrite Hdeps; by apply load_string).
    rewrite Hload. cbn [mbind result_bind].
    unfold outer_step. cbn [m_deps m_pkgs m_d m_p m_stdout].
    rewrite (inner_loop_spec deps pkgs _ dep restp ps []);
      [|done|done|done|].
    2:{ rewrite Hpkgs, length_app, length_fmap. lia. }
    cbn [mbind result_bind m_deps m_pkgs m_d m_p m_stdout].
    unfold int_incr. rewrite length_app, length_cons in Hdfit.
    rewrite decide_True by lia. cbn [mbind result_bind].
    replace (Z.of_nat (length ds1) + 1) with (Z.of_nat (length (ds1 ++ [dep])))
      by (rewrite length_app; simpl; lia).
    destruct (IH (ds1 ++ [dep]) fuel (Z.of_nat (length ([] ++ ps)))
                (out ++ matches_of pkg_match dep ps)) as [p' Hrec].
    + by rewrite <- (assoc (++) ds1), <- cons_middle.
    + done.
    + rewrite <- (assoc (++) ds1), <- cons_middle, length_app, length_cons. lia.
    + done.
    + simpl in Hfuel. lia.
    + exists p'. rewrite Hrec.
      rewrite <- (assoc (++) ds1), <- cons_middle.
      unfold match_lines. by rewrite bind_cons, (assoc (++) out).
Qed.

(** The matching phase on two NULL-terminated arrays prints the groups of
    all constraints and leaves [d] at the terminator. *)
Lemma match_phase_spec deps pkgs ds ps p :
  null_terminated ds deps → null_terminated ps pkgs →
  Z.of_nat (length ds) ≤ INT_MAX → Z.of_nat (length ps) ≤ INT_MAX →
  ∃ p',
    match_phase pkg_match deps pkgs p =
    Ok (Matching deps pkgs (Z.of_nat (length ds)) p'
          (match_lines pkg_match ds ps)).
Proof.
  intros [restd Hdeps] [restp Hpkgs] Hdfit Hpfit. unfold match_phase.
  destruct (outer_loop_spec deps pkgs restd restp ps ds [] (S (length deps)) p [])
    as [p' Hloop]; [done..| |].
  - rewrite Hdeps, length_app, length_fmap. lia.
  - exists p'. exact Hloop.
Qed.

End Matching.

(** ** Traces *)

Lemma stdout_of_app t1 t2 : stdout_of (t1 ++ t2) = stdout_of t1 ++ stdout_of t2.
Proof. apply omap_app. Qed.

Lemma stdout_of_fgetln ls : stdout_of (EFgetln <$> ls) = [].
Proof. induction ls as [|l ls IH]; [done|]. by rewrite fmap_cons. Qed.

Lemma stdout_of_stdout ss : stdout_of (EStdout <$> ss) = ss.
Proof.
  induction ss as [|s ss IH]; [done|].
  rewrite fmap_cons. change (s :: stdout_of (EStdout <$> ss) = s :: ss).
  by rewrite IH.
Qed.

Lemma stderr_of_app t1 t2 : stderr_of (t1 ++ t2) = stderr_of t1 ++ stderr_of t2.
Proof. apply omap_app. Qed.

Lemma stderr_of_fgetln ls : stderr_of (EFgetln <$> ls) = [].
Proof. induction ls as [|l ls IH]; [done|]. by rewrite fmap_cons. Qed.

Lemma stderr_of_stdout ss : stderr_of (EStdout <$> ss) = [].
Proof. induction ss as [|s ss IH]; [done|]. by rewrite fmap_cons. Qed.

(** ** Whole runs *)

Section Runs.

Variable pkg_match : string → string → Z.

(** A run with three arguments, two files that open and two reading phases
    that complete. *)
Lemma main_run e prog path1 path2 dbytes pbytes ds ps :
  argv e = [prog; path1; path2] →
  fopen e path1 = Some dbytes → fopen e path2 = Some pbytes →
  read_file dbytes = Ok ds → read_file pbytes = Ok ps →
  main pkg_match e =
    Ok (0, [EFopen path1 true; EFopen path2 true]
           ++ (EFgetln <$> file_lines dbytes)
           ++ (EFgetln <$> file_lines pbytes)
           ++ [EFclose; EFclose]
           ++ (EStdout <$> match_lines pkg_match (strings_of (arr ds))
                             (strings_of (arr ps)))).
Proof.
  intros Hargv Hd Hp Hds Hps. unfold main. rewrite Hargv. simpl.
  rewrite Hd, Hp, Hds, Hps. cbn [mbind result_bind].
  destruct (read_file_inv _ _ Hds) as (_ & Hdnull & Hdcnt & Hdmax).
  destruct (read_file_inv _ _ Hps) as (_ & Hpnull & Hpcnt & Hpmax).
  rewrite (strings_of_null_terminated _ _ Hdnull).
  rewrite (strings_of_null_terminated _ _ Hpnull).
  destruct (match_phase_spec pkg_match (arr ds) (arr ps) _ _ (cnt ps)
              Hdnull Hpnull) as [p' Hphase].
  - rewrite length_fmap. lia.
  - rewrite length_fmap. lia.
  - by rewrite Hphase.
Qed.

Lemma main_run_stdout e prog path1 path2 dbytes pbytes ds ps :
  argv e = [prog; path1; path2] →
  fopen e path1 = Some dbytes → fopen e path2 = Some pbytes →
  read_file dbytes = Ok ds → read_file pbytes = Ok ps →
  ∃ trace,
    main pkg_match e = Ok (0, trace)
    ∧ stdout_of trace =
        match_lines pkg_match (strings_of (arr ds)) (strings_of (arr ps))
    ∧ stderr_of trace = [].
Proof.
  intros Hargv Hd Hp Hds Hps. eexists. split; [by eapply main_run|].
  split.
  - rewrite !stdout_of_app, !stdout_of_fgetln, stdout_of_stdout. done.
  - rewrite !stderr_of_app, !stderr_of_fgetln, stderr_of_stdout. done.
Qed.

End Runs.

(** ** Stored strings hold no newline *)

Lemma until_nul_elem c buf :
  c ∈ list_ascii_of_string (until_nul buf) → c ∈ buf.
Proof.
  induction buf as [|b buf IH]; simpl; [done|].
  destruct (Ascii.eqb b NUL); simpl; [by intros ?%elem_of_nil|].
  intros [->|Hin]%elem_of_cons; [by left | right; auto].
Qed.

Lemma kept_of_line_no_newline line :
  (∀ i, line !! i = Some LF → S i = length line) →
  LF ∉ list_ascii_of_string (kept_of_line line).
Proof.
  intros Honly Hin. apply until_nul_elem in Hin.
  unfold without_newline in Hin.
  destruct (decide (last line = Some LF)) as [Hlast|Hlast].
  - apply list_elem_of_lookup in Hin as [i Hi].
    pose proof (lookup_lt_Some _ _ _ Hi) as Hlt.
    rewrite length_take in Hlt.
    rewrite lookup_take_Some in Hi. destruct Hi as [Hi _].
    apply Honly in Hi. lia.
  - apply list_elem_of_lookup in Hin as [i Hi].
    apply Hlast. rewrite last_lookup.
    rewrite <- (Honly i Hi). exact Hi.
Qed.

Lemma read_file_no_newline bytes st :
  read_file bytes = Ok st →
  Forall (λ s, LF ∉ list_ascii_of_string s) (strings_of (arr st)).
Proof.
  intros Hread. destruct (read_file_inv _ _ Hread) as (_ & Hnull & _).
  rewrite (strings_of_null_terminated _ _ Hnull).
  apply Forall_fmap.
  eapply Forall_impl; [apply file_lines_newline_last|].
  intros line Honly. by apply kept_of_line_no_newline.
Qed.

(** ** The printed lines as a filtered cross product *)

Section CrossProduct.

Variable pkg_match : string → string → Z.

Lemma matches_of_pairs dep pkgs :
  matches_of pkg_match dep pkgs =
    (λ dp : string * string, print_match dp.1 dp.2)
      <$> filter (λ dp : string * string, pkg_match dp.1 dp.2 ≠ 0)
            (List.map (λ pkg, (dep, pkg)) pkgs).
Proof.
  induction pkgs as [|pkg pkgs IH]; [done|].
  rewrite matches_of_cons, IH. simpl. rewrite filter_cons. simpl.
  by destruct (decide (pkg_match dep pkg ≠ 0)).
Qed.

Lemma match_lines_list_prod deps pkgs :
  match_lines pkg_match deps pkgs =
    (λ dp : string * string, print_match dp.1 dp.2)
      <$> filter (λ dp : string * string, pkg_match dp.1 dp.2 ≠ 0)
            (list_prod deps pkgs).
Proof.
  unfold match_lines. induction deps as [|dep deps IH]; [done|].
  rewrite bind_cons, IH, matches_of_pairs. simpl.
  by rewrite filter_app, fmap_app.
Qed.

End CrossProduct.

(** ** The claims about whole runs *)

Section Claims.

Variable pkg_match : string → string → Z.

(** C1: when both files have been read, the program prints exactly the
    pairs (constraint, package) of the two stored lists for which
    [pkg_match] returns nonzero: the output is the cross product of the
    lists, filtered by [pkg_match], each pair printed as the constraint, a
    single space, the package and a newline.  No stored string holds a
    newline, so every pair is on a line of its own. *)
Theorem main_prints_exactly_the_matches e prog path1 path2 dbytes pbytes ds ps :
  argv e = [prog; path1; path2] →
  fopen e path1 = Some dbytes → fopen e path2 = Some pbytes →
  read_file dbytes = Ok ds → read_file pbytes = Ok ps →
  ∃ trace,
    main pkg_match e = Ok (0, trace)
    ∧ stdout_of trace =
        (λ dp : string * string,
           dp.1 +:+ " " +:+ dp.2 +:+ String LF EmptyString)
          <$> filter (λ dp : string * string, pkg_match dp.1 dp.2 ≠ 0)
                (list_prod (strings_of (arr ds)) (strings_of (arr ps)))
    ∧ Forall (λ s, LF ∉ list_ascii_of_string s)
        (strings_of (arr ds) ++ strings_of (arr ps)).
Proof.
  intros Hargv Hd Hp Hds Hps.
  destruct (main_run_stdout pkg_match e _ _ _ _ _ _ _ Hargv Hd Hp Hds Hps)
    as (trace & Hmain & Hout & _).
  exists trace. split; [done|]. split.
  - by rewrite Hout, match_lines_list_prod.
  - apply Forall_app. split; by eapply read_file_no_newline.
Qed.

(** *** The matching phase writes to neither array *)

Lemma match_step_frame st st' :
  match_step pkg_match st = Ok st' →
  m_deps st' = m_deps st ∧ m_pkgs st' = m_pkgs st ∧ m_d st' = m_d st.
Proof.
  unfold match_step. intros Hstep.
  destruct (load (m_deps st) (m_d st) ≫= string_at) as [dep| |];
    simpl in Hstep; try done.
  destruct (load (m_pkgs st) (m_p st) ≫= string_at) as [pkg| |];
    simpl in Hstep; try done.
  destruct (int_incr (m_p st)) as [p| |]; simpl in Hstep; try done.
  by injection Hstep as <-.
Qed.

Lemma inner_loop_frame fuel : ∀ st st',
  inner_loop pkg_match fuel st = Ok st' →
  m_deps st' = m_deps st ∧ m_pkgs st' = m_pkgs st ∧ m_d st' = m_d st.
Proof.
  induction fuel as [|fuel IH]; intros st st' Hloop; simpl in Hloop; [done|].
  destruct (load (m_pkgs st) (m_p st)) as [c| |]; simpl in Hloop; try done.
  destruct c as [| |s]; [| by injection Hloop as <- |].
  - destruct (match_step pkg_match st) as [st1| |] eqn:Hstep;
      simpl in Hloop; try done.
    destruct (IH _ _ Hloop) as (-> & -> & ->). by apply match_step_frame.
  - destruct (match_step pkg_match st) as [st1| |] eqn:Hstep;
      simpl in Hloop; try done.
    destruct (IH _ _ Hloop) as (-> & -> & ->). by apply match_step_frame.
Qed.

Lemma outer_step_frame st st' :
  outer_step pkg_match st = Ok st' →
  m_deps st' = m_deps st ∧ m_pkgs st' = m_pkgs st.
Proof.
  unfold outer_step. intros Hstep.
  destruct (inner_loop pkg_match _ _) as [st1| |] eqn:Hin;
    simpl in Hstep; try done.
  destruct (int_incr (m_d st1)) as [d| |]; simpl in Hstep; try done.
  injection Hstep as <-. simpl.
  by destruct (inner_loop_frame _ _ _ Hin) as (-> & -> & _).
Qed.

Lemma outer_loop_frame fuel : ∀ st st',
  outer_loop pkg_match fuel st = Ok st' →
  m_deps st' = m_deps st ∧ m_pkgs st' = m_pkgs st.
Proof.
  induction fuel as [|fuel IH]; intros st st' Hloop; simpl in Hloop; [done|].
  destruct (load (m_deps st) (m_d st)) as [c| |]; simpl in Hloop; try done.
  destruct c as [| |s]; [| by injection Hloop as <- |].
  - destruct (outer_step pkg_match st) as [st1| |] eqn:Hstep;
      simpl in Hloop; try done.
    destruct (IH _ _ Hloop) as (-> & ->). by apply outer_step_frame.
  - destruct (outer_step pkg_match st) as [st1| |] eqn:Hstep;
      simpl in Hloop; try done.
    destruct (IH _ _ Hloop) as (-> & ->). by apply outer_step_frame.
Qed.

(** C4: the matching phase is read-only on the stored data.  Whatever the
    two arrays hold when the phase starts (in particular what the reading
    phase left), once the match-and-print loops have completed both arrays,
    and with them every string they point to, are what they were:
    [pkg_match] and [printf] get the strings as [const char *] values and
    the loops assign to [d], [p] and the output only. *)
Theorem match_phase_leaves_arrays deps pkgs p st :
  match_phase pkg_match deps pkgs p = Ok st →
  m_deps st = deps ∧ m_pkgs st = pkgs.
Proof. intros Hphase. by apply outer_loop_frame in Hphase. Qed.

(** C9: with an argument count other than 3, or with one of the two named
    files failing to open, the program exits with status 1, has read no
    line and has printed nothing to standard output; in the argument-count
    case the usage message on standard error is all it did. *)
Theorem main_fails_early e :
  (length (argv e) ≠ 3%nat
   ∨ ∃ path, (argv e !! 1%nat = Some path ∨ argv e !! 2%nat = Some path)
             ∧ fopen e path = None) →
  ∃ trace,
    main pkg_match e = Ok (1, trace)
    ∧ lines_read trace = []
    ∧ stdout_of trace = []
    ∧ (length (argv e) ≠ 3%nat → trace = [EStderr usage]).
Proof.
  intros Hbad. unfold main.
  destruct (decide (Z.of_nat (length (argv e)) ≠ 3)) as [Hargc|Hargc].
  - by eexists.
  - assert (length (argv e) = 3%nat) as Hlen by lia.
    destruct Hbad as [Hne|(path & Hpath & Hopen)]; [done|].
    destruct (argv e) as [|a0 [|a1 [|a2 [|a3 ?]]]]; try done. simpl in *.
    destruct Hpath as [[= ->]|[= ->]]; rewrite Hopen.
    + destruct (fopen e a2); by eexists.
    + destruct (fopen e a1); by eexists.
Qed.

End Claims.

(** ** The claims about the reading loops *)

(** C7: the growable-array invariant.  Both reading loops are the same code;
    in any state [st] that a loop can reach from its start, after a further
    insertion has completed (reallocation included) the count, which is the
    number of lines stored, is strictly below the capacity, the array has
    exactly that capacity, the capacity is 32768 times a power of two, and
    it has been doubled exactly when the new count reached it. *)
Theorem capacity_invariant fp st dep st' :
  read_loop read_init fp = Ok st →
  insert_line st dep = Ok st' →
  cnt st' = Z.of_nat (length fp) + 1
  ∧ cnt st' < cap st'
  ∧ Z.of_nat (length (arr st')) = cap st'
  ∧ (∃ k : nat, cap st' = 32768 * 2 ^ Z.of_nat k)
  ∧ cap st' = (if decide (cnt st' = cap st) then 2 * cap st else cap st).
Proof.
  intros Hloop Hins.
  destruct (read_loop_inv _ _ _ _ read_init_inv Hloop) as [_ Hinv].
  destruct (insert_line_inv _ _ _ _ Hinv Hins) as (_ & _ & Hinv' & Hcnt & Hcap).
  destruct Hinv as [Hc _ _ _ _ _ _].
  destruct Hinv' as [_ Hlen Hlt _ Hpow _ _].
  rewrite app_nil_l, length_fmap in Hc.
  split; [lia|]. split; [done|]. split; [done|]. split; [done|].
  by rewrite Hcnt.
Qed.

(** Under the invariant an insertion can go wrong in two ways only, and
    neither is an access outside the array. *)
Lemma insert_line_cases ss st dep :
  read_inv ss st → dep ≠ [] →
  (∃ st', insert_line st dep = Ok st')
  ∨ insert_line st dep = Undefined ReadPastLine
  ∨ insert_line st dep = Undefined IntOverflow.
Proof.
  intros Hinv Hne.
  destruct (decide (terminated dep)) as [Hterm|Hterm].
  - destruct (decide (cnt st < INT_MAX)) as [Hd|Hd].
    + left. by eapply insert_line_complete.
    + right. right. destruct Hinv as [Hcnt Hlen Hlt Hmax _ _ _].
      unfold insert_line.
      pose proof (chomp_strdup dep Hne) as Hcs.
      rewrite decide_True in Hcs by done.
      destruct (chomp dep) as [buf| |]; simpl in Hcs; try done.
      simpl. rewrite Hcs. simpl. unfold store.
      rewrite decide_True by lia. simpl.
      unfold int_incr. by rewrite decide_False.
  - right. left. unfold insert_line.
    pose proof (chomp_strdup dep Hne) as Hcs.
    rewrite decide_False in Hcs by done.
    destruct (chomp dep) as [buf|u|]; simpl in Hcs |- *.
    + by rewrite Hcs.
    + by injection Hcs as ->.
    + done.
Qed.

Lemma read_loop_cases fp : ∀ ss st,
  read_inv ss st → Forall (λ l, l ≠ []) fp →
  (∃ st', read_loop st fp = Ok st')
  ∨ read_loop st fp = Undefined ReadPastLine
  ∨ read_loop st fp = Undefined IntOverflow.
Proof.
  induction fp as [|dep fp IH]; intros ss st Hinv Hne; simpl; [by eauto|].
  inversion Hne as [|? ? Hdep Hfp]; subst.
  destruct (insert_line_cases ss st dep Hinv Hdep) as [[st1 Hins]|[Hins|Hins]];
    rewrite Hins; simpl; [|by auto..].
  destruct (insert_line_inv _ _ _ _ Hinv Hins) as (_ & _ & Hinv1 & _).
  by eapply IH.
Qed.

(** C2, as amended: when a reading phase runs to completion, the array
    holds one string per line of the file, in file order, each being the
    line with a single trailing newline removed if present and then cut in
    front of its first NUL byte if it has one, and the entry right after
    the last string is NULL. *)
Theorem read_file_stores_lines bytes st :
  read_file bytes = Ok st →
  ∃ rest,
    arr st =
      (Str <$> ((λ line, until_nul (without_newline line)) <$> file_lines bytes))
      ++ Null :: rest.
Proof.
  intros Hread. by destruct (read_file_inv _ _ Hread) as (_ & Hnull & _).
Qed.

(** On a line without NUL bytes, what is kept is the line without its
    newline. *)
Lemma kept_of_line_text line :
  NUL ∉ line →
  kept_of_line line = string_of_list_ascii (without_newline line).
Proof.
  intros Hnul. unfold kept_of_line.
  assert (NUL ∉ without_newline line) as Hnul'.
  { unfold without_newline. destruct (decide (last line = Some LF)); [|done].
    intros Hin. apply Hnul. apply elem_of_take in Hin as (i & Hi & _).
    by eapply list_elem_of_lookup_2. }
  induction (without_newline line) as [|c l IH]; simpl; [done|].
  apply not_elem_of_cons in Hnul' as [Hc Hl].
  destruct (Ascii.eqb_spec c NUL) as [->|_]; [done|]. by rewrite IH.
Qed.

(** ** The order of the printed lines *)

Section Order.

Variable pkg_match : string → string → Z.

Lemma row_positions_elem dep i pkgs : ∀ j i' j',
  (i', j') ∈ row_positions pkg_match dep i j pkgs ↔
  i' = i ∧ (j ≤ j')%nat
  ∧ ∃ pkg, pkgs !! (j' - j)%nat = Some pkg ∧ pkg_match dep pkg ≠ 0.
Proof.
  induction pkgs as [|pkg pkgs IH]; intros j i' j'; simpl.
  - split; [by intros ?%elem_of_nil | by intros (_ & _ & pkg & ? & _)].
  - rewrite elem_of_app, IH. split.
    + intros [Hhead|(-> & Hle & pkg' & Hl & Hm)].
      * destruct (decide (pkg_match dep pkg ≠ 0)); [|by apply elem_of_nil in Hhead].
        apply list_elem_of_singleton in Hhead. injection Hhead as -> ->.
        split; [done|]. split; [lia|]. exists pkg.
        by rewrite Nat.sub_diag.
      * split; [done|]. split; [lia|]. exists pkg'.
        by replace (j' - j)%nat with (S (j' - S j)) by lia.
    + intros (-> & Hle & pkg' & Hl & Hm).
      destruct (decide (j' = j)) as [->|Hne].
      * left. rewrite Nat.sub_diag in Hl. injection Hl as ->.
        rewrite decide_True by done. by left.
      * right. split; [done|]. split; [lia|]. exists pkg'.
        by replace (j' - j)%nat with (S (j' - S j)) in Hl by lia.
Qed.

Lemma row_positions_sorted dep i pkgs : ∀ j,
  StronglySorted lex_lt (row_positions pkg_match dep i j pkgs).
Proof.
  induction pkgs as [|pkg pkgs IH]; intros j; simpl; [constructor|].
  destruct (decide (pkg_match dep pkg ≠ 0)); simpl; [|by apply IH].
  constructor; [by apply IH|].
  apply Forall_forall. intros [i' j'] Hin.
  apply row_positions_elem in Hin as (-> & Hle & _).
  right. simpl. split; [done | lia].
Qed.

Lemma row_positions_lines dep i pkgs : ∀ j,
  Forall2 (λ ij line,
             ∃ pkg, pkgs !! (ij.2 - j)%nat = Some pkg ∧ (j ≤ ij.2)%nat
                    ∧ ij.1 = i ∧ line = print_match dep pkg)
    (row_positions pkg_match dep i j pkgs) (matches_of pkg_match dep pkgs).
Proof.
  induction pkgs as [|pkg pkgs IH]; intros j; [constructor|].
  rewrite matches_of_cons. simpl. apply Forall2_app.
  - destruct (decide (pkg_match dep pkg ≠ 0)); [|constructor].
    repeat constructor. exists pkg. simpl. by rewrite Nat.sub_diag.
  - eapply Forall2_impl; [apply (IH (S j))|].
    intros [i' j'] line (pkg' & Hl & Hle & Hi & ->). simpl in *.
    exists pkg'. replace (j' - j)%nat with (S (j' - S j)) by lia.
    repeat split; [done | lia | done].
Qed.

Lemma positions_from_elem pkgs deps : ∀ i i' j',
  (i', j') ∈ positions_from pkg_match i deps pkgs ↔
  (i ≤ i')%nat
  ∧ ∃ dep pkg, deps !! (i' - i)%nat = Some dep ∧ pkgs !! j' = Some pkg
               ∧ pkg_match dep pkg ≠ 0.
Proof.
  induction deps as [|dep deps IH]; intros i i' j'; simpl.
  - split; [by intros ?%elem_of_nil | by intros (_ & dep & pkg & ? & _)].
  - rewrite elem_of_app, IH, row_positions_elem. split.
    + intros [(-> & _ & pkg & Hl & Hm)|(Hle & dep' & pkg & Hd & Hp & Hm)].
      * split; [done|]. exists dep, pkg. rewrite Nat.sub_diag.
        by rewrite Nat.sub_0_r in Hl.
      * split; [lia|]. exists dep', pkg.
        by replace (i' - i)%nat with (S (i' - S i)) by lia.
    + intros (Hle & dep' & pkg & Hd & Hp & Hm).
      destruct (decide (i' = i)) as [->|Hne].
      * left. rewrite Nat.sub_diag in Hd. injection Hd as ->.
        split; [done|]. split; [lia|]. exists pkg.
        by rewrite Nat.sub_0_r.
      * right. split; [lia|]. exists dep', pkg.
        by replace (i' - i)%nat with (S (i' - S i)) in Hd by lia.
Qed.

Lemma positions_from_sorted pkgs deps : ∀ i,
  StronglySorted lex_lt (positions_from pkg_match i deps pkgs).
Proof.
  induction deps as [|dep deps IH]; intros i; simpl; [constructor|].
  apply StronglySorted_app_2; [|apply row_positions_sorted|apply IH].
  intros [i1 j1] [i2 j2] H1 H2.
  apply row_positions_elem in H1 as (-> & _).
  apply positions_from_elem in H2 as (Hle & _).
  left. simpl. lia.
Qed.

Lemma positions_from_lines pkgs deps : ∀ i,
  Forall2 (λ ij line,
             ∃ dep pkg, deps !! (ij.1 - i)%nat = Some dep ∧ (i ≤ ij.1)%nat
                        ∧ pkgs !! ij.2 = Some pkg
                        ∧ line = print_match dep pkg)
    (positions_from pkg_match i deps pkgs) (match_lines pkg_match deps pkgs).
Proof.
  induction deps as [|dep deps IH]; intros i; [constructor|].
  unfold match_lines. rewrite bind_cons. simpl. apply Forall2_app.
  - eapply Forall2_impl; [apply row_positions_lines|].
    intros [i' j'] line (pkg & Hl & _ & Hi & ->). simpl in *. subst i'.
    exists dep, pkg. rewrite Nat.sub_diag. rewrite Nat.sub_0_r in Hl.
    by repeat split.
  - eapply Forall2_impl; [apply (IH (S i))|].
    intros [i' j'] line (dep' & pkg & Hd & Hle & Hp & ->). simpl in *.
    exists dep', pkg. replace (i' - i)%nat with (S (i' - S i)) by lia.
    repeat split; [done | lia | done].
Qed.

(** C10: the printed lines come in the order of the loops.  The lines are,
    one for one, the matching pairs taken in strictly increasing order of
    (position of the constraint in the dependency list, position of the
    package in the package list): grouped by constraint in file order, and
    inside a group in the order of the package file. *)
Theorem output_order e prog path1 path2 dbytes pbytes ds ps :
  argv e = [prog; path1; path2] →
  fopen e path1 = Some dbytes → fopen e path2 = Some pbytes →
  read_file dbytes = Ok ds → read_file pbytes = Ok ps →
  ∃ trace positions,
    main pkg_match e = Ok (0, trace)
    ∧ StronglySorted lex_lt positions
    ∧ (∀ i j, (i, j) ∈ positions ↔
         ∃ dep pkg, strings_of (arr ds) !! i = Some dep
                    ∧ strings_of (arr ps) !! j = Some pkg
                    ∧ pkg_match dep pkg ≠ 0)
    ∧ Forall2 (λ ij line,
                 ∃ dep pkg, strings_of (arr ds) !! ij.1 = Some dep
                            ∧ strings_of (arr ps) !! ij.2 = Some pkg
                            ∧ line = print_match dep pkg)
        positions (stdout_of trace).
Proof.
  intros Hargv Hd Hp Hds Hps.
  destruct (main_run_stdout pkg_match e _ _ _ _ _ _ _ Hargv Hd Hp Hds Hps)
    as (trace & Hmain & Hout & _).
  exists trace,
    (positions_from pkg_match 0 (strings_of (arr ds)) (strings_of (arr ps))).
  split; [done|]. split; [apply positions_from_sorted|]. split.
  - intros i j. rewrite positions_from_elem, Nat.sub_0_r.
    split; [by intros [_ H] | intros H; split; [lia | done]].
  - rewrite Hout. eapply Forall2_impl; [apply positions_from_lines|].
    intros [i j] line (dep & pkg & Hi & _ & Hj & ->). simpl in *.
    rewrite Nat.sub_0_r in Hi. by exists dep, pkg.
Qed.

End Order.

(** ** Constraints that match nothing *)

Section Silent.

Variable pkg_match : string → string → Z.

Lemma matches_of_none dep pkgs :
  ¬ Exists (λ pkg, pkg_match dep pkg ≠ 0) pkgs →
  matches_of pkg_match dep pkgs = [].
Proof.
  intros Hnone. induction pkgs as [|pkg pkgs IH]; [done|].
  rewrite matches_of_cons, IH.
  - rewrite decide_False; [done|]. intros Hm. apply Hnone. by left.
  - intros Hex. apply Hnone. by right.
Qed.

Lemma match_lines_skip deps pkgs :
  match_lines pkg_match
    (filter (λ dep, Exists (λ pkg, pkg_match dep pkg ≠ 0) pkgs) deps) pkgs =
  match_lines pkg_match deps pkgs.
Proof.
  unfold match_lines. induction deps as [|dep deps IH]; [done|].
  rewrite filter_cons, bind_cons.
  destruct (decide (Exists (λ pkg, pkg_match dep pkg ≠ 0) pkgs)) as [Hex|Hnone].
  - by rewrite bind_cons, IH.
  - by rewrite IH, matches_of_none.
Qed.

(** C3, as amended: the driver has no way to report a constraint line.  It
    looks at nothing but the [int] that [pkg_match] returns; a constraint
    for which that is 0 on every stored package, malformed or merely
    matching nothing, leaves no trace: standard output is what it would be
    without such lines, nothing goes to standard error, the other
    constraints are processed as usual and the exit status is 0. *)
Theorem unmatched_constraints_are_silent e prog path1 path2 dbytes pbytes ds ps :
  argv e = [prog; path1; path2] →
  fopen e path1 = Some dbytes → fopen e path2 = Some pbytes →
  read_file dbytes = Ok ds → read_file pbytes = Ok ps →
  ∃ trace,
    main pkg_match e = Ok (0, trace)
    ∧ stderr_of trace = []
    ∧ stdout_of trace =
        match_lines pkg_match
          (filter (λ dep, Exists (λ pkg, pkg_match dep pkg ≠ 0)
                            (strings_of (arr ps)))
             (strings_of (arr ds)))
          (strings_of (arr ps)).
Proof.
  intros Hargv Hd Hp Hds Hps.
  destruct (main_run_stdout pkg_match e _ _ _ _ _ _ _ Hargv Hd Hp Hds Hps)
    as (trace & Hmain & Hout & Herr).
  exists trace. split; [done|]. split; [done|].
  by rewrite match_lines_skip.
Qed.

End Silent.

(** ** The model never runs out of fuel *)

Lemma strdup_fuel buf : strdup buf ≠ OutOfFuel.
Proof.
  induction buf as [|c buf IH]; simpl; [done|].
  destruct (Ascii.eqb c NUL); [done|]. by destruct (strdup buf).
Qed.

Lemma insert_line_fuel st dep : insert_line st dep ≠ OutOfFuel.
Proof.
  unfold insert_line, chomp.
  destruct (length dep) as [|k]; [done|].
  assert (∀ buf, (strdup buf ≫= λ s,
            store (arr st) (cnt st) (Str s) ≫= λ a,
            int_incr (cnt st) ≫= λ d,
            if decide (size_of_int d = cap st)
            then Ok (GrowArr (xrealloc a (size_mul (size_mul (cap st) 2) sizeof_ptr))
                       d (size_mul (cap st) 2))
            else Ok (GrowArr a d (cap st))) ≠ OutOfFuel) as Hrest.
  { intros buf. pose proof (strdup_fuel buf) as Hs.
    destruct (strdup buf) as [s| |]; simpl; try done.
    unfold store, int_incr.
    destruct (decide (0 ≤ cnt st < Z.of_nat (length (arr st)))); simpl; [|done].
    destruct (decide (cnt st < INT_MAX)); simpl; [|done].
    by destruct (decide (size_of_int (cnt st + 1) = cap st)). }
  destruct (decide (dep !! k = Some LF)); apply Hrest.
Qed.

Lemma read_file_fuel bytes : read_file bytes ≠ OutOfFuel.
Proof.
  unfold read_file.
  assert (∀ fp st, read_loop st fp ≠ OutOfFuel) as Hloop.
  { induction fp as [|dep fp IH]; intros st; simpl; [done|].
    pose proof (insert_line_fuel st dep) as Hins.
    destruct (insert_line st dep) as [st1| |]; simpl; [apply IH|done..]. }
  specialize (Hloop (file_lines bytes) read_init).
  destruct (read_loop read_init (file_lines bytes)) as [st| |]; simpl; try done.
  unfold terminate, store.
  by destruct (decide (0 ≤ cnt st < Z.of_nat (length (arr st)))).
Qed.

(** Every run ends, with an exit status or in undefined behaviour: the fuel
    given to the matching loops is never used up. *)
Lemma main_fuel pkg_match e : main pkg_match e ≠ OutOfFuel.
Proof.
  unfold main.
  destruct (decide (Z.of_nat (length (argv e)) ≠ 3)); [done|].
  destruct (argv e !! 1%nat) as [path1|]; [|done].
  destruct (argv e !! 2%nat) as [path2|]; [|done].
  destruct (fopen e path1) as [dbytes|], (fopen e path2) as [pbytes|]; try done.
  pose proof (read_file_fuel dbytes) as Hd.
  pose proof (read_file_fuel pbytes) as Hp.
  destruct (read_file dbytes) as [ds| |] eqn:Hds; simpl; try done.
  destruct (read_file pbytes) as [ps| |] eqn:Hps; simpl; try done.
  destruct (read_file_inv _ _ Hds) as (_ & Hdnull & Hdcnt & Hdmax).
  destruct (read_file_inv _ _ Hps) as (_ & Hpnull & Hpcnt & Hpmax).
  destruct (match_phase_spec pkg_match (arr ds) (arr ps) _ _ (cnt ps)
              Hdnull Hpnull) as [p' Hphase].
  - rewrite length_fmap. lia.
  - rewrite length_fmap. lia.
  - by rewrite Hphase.
Qed.

(** ** Where the reading loop gives up *)

(** A file with more usable lines than an [int] can count overflows the
    count: the increment of INT_MAX is undefined. *)
Lemma read_loop_overflow fp : ∀ ss st,
  read_inv ss st →
  Forall (λ l, l ≠ [] ∧ terminated l) fp →
  INT_MAX < cnt st + Z.of_nat (length fp) →
  read_loop st fp = Undefined IntOverflow.
Proof.
  induction fp as [|dep fp IH]; intros ss st Hinv Hall Hbig.
  - destruct Hinv as [_ _ _ Hmax _ _ _]. simpl in Hbig. lia.
  - inversion Hall as [|? ? [Hne Hterm] Hall']; subst.
    rewrite length_cons in Hbig. simpl.
    destruct (decide (cnt st < INT_MAX)) as [Hd|Hd].
    + destruct (insert_line_complete ss st dep) as [st1 Hins]; [done..|].
      rewrite Hins. simpl.
      destruct (insert_line_inv _ _ _ _ Hinv Hins) as (_ & _ & Hinv1 & Hc & _).
      eapply IH; [done..|lia].
    + destruct Hinv as [Hcnt Hlen Hlt Hmax _ _ _].
      unfold insert_line.
      pose proof (chomp_strdup dep Hne) as Hcs.
      rewrite decide_True in Hcs by done.
      destruct (chomp dep) as [buf| |]; simpl in Hcs; try done.
      simpl. rewrite Hcs. simpl. unfold store.
      rewrite decide_True by lia. simpl.
      unfold int_incr. by rewrite decide_False.
Qed.

(** The doubling does happen: once 32768 lines are stored the capacity is
    65536. *)
Lemma capacity_doubles_at_32768 fp st :
  read_loop read_init fp = Ok st →
  length fp = Z.to_nat 32768 →
  cap st = 65536.
Proof.
  intros Hloop Hlen.
  destruct (read_loop_inv _ _ _ _ read_init_inv Hloop) as [_ Hinv].
  destruct Hinv as [Hcnt _ Hlt _ [k Hpow] Htight _].
  rewrite app_nil_l, length_fmap, Hlen in Hcnt.
  unfold INITIAL_SIZE in Htight.
  destruct k as [|[|k]].
  - change (2 ^ Z.of_nat 0) with 1 in Hpow. lia.
  - change (2 ^ Z.of_nat 1) with 2 in Hpow. lia.
  - rewrite !Nat2Z.inj_succ, !Z.pow_succ_r in Hpow by lia.
    assert (0 < 2 ^ Z.of_nat k) by (apply Z.pow_pos_nonneg; lia). lia.
Qed.

(** ** Runs that stay defined *)

(** With three arguments and two files that can be opened, end in a newline
    (or are empty) and have no more lines than an [int] can count, the
    program runs to its end and exits with status 0. *)
Lemma main_completes pkg_match e prog path1 path2 dbytes pbytes :
  argv e = [prog; path1; path2] →
  fopen e path1 = Some dbytes → fopen e path2 = Some pbytes →
  dbytes = [] ∨ last dbytes = Some LF →
  pbytes = [] ∨ last pbytes = Some LF →
  Z.of_nat (length (file_lines dbytes)) ≤ INT_MAX →
  Z.of_nat (length (file_lines pbytes)) ≤ INT_MAX →
  ∃ trace, main pkg_match e = Ok (0, trace).
Proof.
  intros Hargv Hd Hp Hdend Hpend Hdfit Hpfit.
  destruct (read_file_complete dbytes) as [ds Hds];
    [by apply newline_ended_terminated | done |].
  destruct (read_file_complete pbytes) as [ps Hps];
    [by apply newline_ended_terminated | done |].
  eexists. by eapply main_run.
Qed.

(** ** The matcher of the specification on its examples *)

(** C5: for the alternation pattern [foo<1.0|foo>=2.0] the matcher accepts
    the candidates [foo-0.5] and [foo-2.1] and rejects [foo-1.5]; through
    the [int] interface that is a nonzero, a nonzero and a zero result. *)
Theorem alternation_example :
  PatternMatcher.matchPattern "foo<1.0|foo>=2.0" "foo-0.5"
    = PatternMatcher.Parsed true
  ∧ PatternMatcher.matchPattern "foo<1.0|foo>=2.0" "foo-2.1"
    = PatternMatcher.Parsed true
  ∧ PatternMatcher.matchPattern "foo<1.0|foo>=2.0" "foo-1.5"
    = PatternMatcher.Parsed false
  ∧ ∀ on_error,
      PatternMatcher.pkg_match_int on_error "foo<1.0|foo>=2.0" "foo-0.5" ≠ 0
      ∧ PatternMatcher.pkg_match_int on_error "foo<1.0|foo>=2.0" "foo-2.1" ≠ 0
      ∧ PatternMatcher.pkg_match_int on_error "foo<1.0|foo>=2.0" "foo-1.5" = 0.
Proof.
  split; [vm_compute; reflexivity|].
  split; [vm_compute; reflexivity|].
  split; [vm_compute; reflexivity|].
  intros on_error. unfold PatternMatcher.pkg_match_int.
  replace (PatternMatcher.matchPattern "foo<1.0|foo>=2.0" "foo-0.5")
    with (PatternMatcher.Parsed true) by (vm_compute; reflexivity).
  replace (PatternMatcher.matchPattern "foo<1.0|foo>=2.0" "foo-2.1")
    with (PatternMatcher.Parsed true) by (vm_compute; reflexivity).
  replace (PatternMatcher.matchPattern "foo<1.0|foo>=2.0" "foo-1.5")
    with (PatternMatcher.Parsed false) by (vm_compute; reflexivity).
  done.
Qed.

(** The matcher agrees with the other worked examples of the specification
    (section 8): numeric runs, suffixes, a half-open range, a glob and a
    malformed pattern. *)
Lemma matcher_examples :
  VersionComparator.compareVersions "1.9" "1.10" = VersionComparator.LESS
  ∧ VersionComparator.compareVersions "1.0" "1.0a1" = VersionComparator.GREATER
  ∧ VersionComparator.compareVersions "1.0a1" "1.0a2" = VersionComparator.LESS
  ∧ PatternMatcher.matchPattern "foo>=1.2<2.0" <$>
      ["foo-1.5"; "foo-2.0"; "foo-1.2"; "foo-0.9"; "bar-1.5"]
    = PatternMatcher.Parsed <$> [true; false; true; false; false]
  ∧ PatternMatcher.matchPattern "foo-*" <$> ["foo-1.2.3"; "foo-"; "bar-1.2.3"]
    = PatternMatcher.Parsed <$> [true; true; false]
  ∧ PatternMatcher.matchPattern "foo>=" "foo-1.0" = PatternMatcher.ParseError.
Proof.
  split; [vm_compute; reflexivity|].
  split; [vm_compute; reflexivity|].
  split; [vm_compute; reflexivity|].
  split; [vm_compute; reflexivity|].
  split; vm_compute; reflexivity.
Qed.

(** ** The statements at sample inputs *)

Lemma main_prints_exactly_the_matches_witness :
  read_file (text sample_deps) = Ok (sample_read_state sample_deps)
  ∧ read_file (text sample_pkgs) = Ok (sample_read_state sample_pkgs)
  ∧ ∃ trace,
      main (PatternMatcher.pkg_match_int 0)
        (sample_env (text sample_deps) (text sample_pkgs)) = Ok (0, trace)
      ∧ stdout_of trace =
          (λ dp : string * string,
             dp.1 +:+ " " +:+ dp.2 +:+ String LF EmptyString)
            <$> filter (λ dp : string * string,
                          PatternMatcher.pkg_match_int 0 dp.1 dp.2 ≠ 0)
                  (list_prod (strings_of (arr (sample_read_state sample_deps)))
                     (strings_of (arr (sample_read_state sample_pkgs))))
      ∧ Forall (λ s, LF ∉ list_ascii_of_string s)
          (strings_of (arr (sample_read_state sample_deps))
           ++ strings_of (arr (sample_read_state sample_pkgs))).
Proof.
  assert (read_file (text sample_deps) = Ok (sample_read_state sample_deps))
    as Hd by (vm_cast_no_check (eq_refl (Ok (sample_read_state sample_deps)))).
  assert (read_file (text sample_pkgs) = Ok (sample_read_state sample_pkgs))
    as Hp by (vm_cast_no_check (eq_refl (Ok (sample_read_state sample_pkgs)))).
  split; [exact Hd|]. split; [exact Hp|].
  exact (main_prints_exactly_the_matches (PatternMatcher.pkg_match_int 0)
           (sample_env (text sample_deps) (text sample_pkgs))
           _ _ _ _ _ _ _ eq_refl eq_refl eq_refl Hd Hp).
Defined.

Lemma read_file_stores_lines_witness :
  read_file (text sample_deps) = Ok (sample_read_state sample_deps)
  ∧ ∃ rest,
      arr (sample_read_state sample_deps) =
        (Str <$> ((λ line, until_nul (without_newline line))
                    <$> file_lines (text sample_deps)))
        ++ Null :: rest.
Proof.
  assert (read_file (text sample_deps) = Ok (sample_read_state sample_deps))
    as Hd by (vm_cast_no_check (eq_refl (Ok (sample_read_state sample_deps)))).
  split; [exact Hd|].
  exact (read_file_stores_lines (text sample_deps) _ Hd).
Defined.

Lemma capacity_invariant_witness :
  read_loop read_init (file_lines (text sample_deps))
    = Ok (sample_loop_state sample_deps)
  ∧ insert_line (sample_loop_state sample_deps) (text ["baz-[0-9]*"])
    = Ok (sample_loop_state (sample_deps ++ ["baz-[0-9]*"]))
  ∧ cnt (sample_loop_state (sample_deps ++ ["baz-[0-9]*"]))
    = Z.of_nat (length (file_lines (text sample_deps))) + 1
  ∧ cnt (sample_loop_state (sample_deps ++ ["baz-[0-9]*"]))
    < cap (sample_loop_state (sample_deps ++ ["baz-[0-9]*"]))
  ∧ Z.of_nat (length (arr (sample_loop_state (sample_deps ++ ["baz-[0-9]*"]))))
    = cap (sample_loop_state (sample_deps ++ ["baz-[0-9]*"]))
  ∧ (∃ k : nat,
       cap (sample_loop_state (sample_deps ++ ["baz-[0-9]*"]))
       = 32768 * 2 ^ Z.of_nat k)
  ∧ cap (sample_loop_state (sample_deps ++ ["baz-[0-9]*"]))
    = (if decide (cnt (sample_loop_state (sample_deps ++ ["baz-[0-9]*"]))
                  = cap (sample_loop_state sample_deps))
       then 2 * cap (sample_loop_state sample_deps)
       else cap (sample_loop_state sample_deps)).
Proof.
  assert (read_loop read_init (file_lines (text sample_deps))
          = Ok (sample_loop_state sample_deps)) as Hloop
    by (vm_cast_no_check (eq_refl (Ok (sample_loop_state sample_deps)))).
  assert (insert_line (sample_loop_state sample_deps) (text ["baz-[0-9]*"])
          = Ok (sample_loop_state (sample_deps ++ ["baz-[0-9]*"]))) as Hins
    by (vm_cast_no_check
          (eq_refl (Ok (sample_loop_state (sample_deps ++ ["baz-[0-9]*"]))))).
  split; [exact Hloop|]. split; [exact Hins|].
  exact (capacity_invariant _ _ _ _ Hloop Hins).
Defined.

Lemma match_phase_leaves_arrays_witness :
  match_phase (PatternMatcher.pkg_match_int 0)
    (arr (sample_read_state sample_deps)) (arr (sample_read_state sample_pkgs)) 3
  = Ok (Matching (arr (sample_read_state sample_deps))
          (arr (sample_read_state sample_pkgs)) 3 3
          [print_match "foo>=1.0" "foo-1.5"; print_match "bar<2" "bar-1.0"])
  ∧ m_deps (Matching (arr (sample_read_state sample_deps))
              (arr (sample_read_state sample_pkgs)) 3 3
              [print_match "foo>=1.0" "foo-1.5"; print_match "bar<2" "bar-1.0"])
    = arr (sample_read_state sample_deps)
  ∧ m_pkgs (Matching (arr (sample_read_state sample_deps))
              (arr (sample_read_state sample_pkgs)) 3 3
              [print_match "foo>=1.0" "foo-1.5"; print_match "bar<2" "bar-1.0"])
    = arr (sample_read_state sample_pkgs).
Proof.
  assert (match_phase (PatternMatcher.pkg_match_int 0)
            (arr (sample_read_state sample_deps))
            (arr (sample_read_state sample_pkgs)) 3
          = Ok (Matching (arr (sample_read_state sample_deps))
                  (arr (sample_read_state sample_pkgs)) 3 3
                  [print_match "foo>=1.0" "foo-1.5";
                   print_match "bar<2" "bar-1.0"])) as Hphase
    by (vm_cast_no_check
          (eq_refl (Ok (Matching (arr (sample_read_state sample_deps))
                          (arr (sample_read_state sample_pkgs)) 3 3
                          [print_match "foo>=1.0" "foo-1.5";
                           print_match "bar<2" "bar-1.0"])))).
  split; [exact Hphase|].
  exact (match_phase_leaves_arrays _ _ _ _ _ Hphase).
Defined.

Lemma main_fails_early_witness :
  (length (argv (Env ["test-pkgmatch"; "pkgdeps.txt"] (sample_fs [] []))) ≠ 3%nat
   ∧ ∃ trace,
       main (PatternMatcher.pkg_match_int 0)
         (Env ["test-pkgmatch"; "pkgdeps.txt"] (sample_fs [] [])) = Ok (1, trace)
       ∧ lines_read trace = []
       ∧ stdout_of trace = []
       ∧ (length (argv (Env ["test-pkgmatch"; "pkgdeps.txt"] (sample_fs [] [])))
            ≠ 3%nat → trace = [EStderr usage]))
  ∧ (sample_fs (text sample_deps) (text sample_pkgs) "missing.txt" = None
     ∧ ∃ trace,
         main (PatternMatcher.pkg_match_int 0)
           (Env ["test-pkgmatch"; "pkgdeps.txt"; "missing.txt"]
              (sample_fs (text sample_deps) (text sample_pkgs))) = Ok (1, trace)
         ∧ lines_read trace = []
         ∧ stdout_of trace = []
         ∧ (length (argv (Env ["test-pkgmatch"; "pkgdeps.txt"; "missing.txt"]
                            (sample_fs (text sample_deps) (text sample_pkgs))))
              ≠ 3%nat → trace = [EStderr usage])).
Proof.
  split.
  - split; [simpl; lia|].
    apply main_fails_early. left. simpl. lia.
  - split; [reflexivity|].
    apply main_fails_early. right. exists "missing.txt".
    split; [right; reflexivity | reflexivity].
Defined.

Lemma output_order_witness :
  read_file (text sample_deps) = Ok (sample_read_state sample_deps)
  ∧ read_file (text sample_pkgs) = Ok (sample_read_state sample_pkgs)
  ∧ ∃ trace positions,
      main (PatternMatcher.pkg_match_int 0)
        (sample_env (text sample_deps) (text sample_pkgs)) = Ok (0, trace)
      ∧ StronglySorted lex_lt positions
      ∧ (∀ i j, (i, j) ∈ positions ↔
           ∃ dep pkg,
             strings_of (arr (sample_read_state sample_deps)) !! i = Some dep
             ∧ strings_of (arr (sample_read_state sample_pkgs)) !! j = Some pkg
             ∧ PatternMatcher.pkg_match_int 0 dep pkg ≠ 0)
      ∧ Forall2 (λ ij line,
                   ∃ dep pkg,
                     strings_of (arr (sample_read_state sample_deps)) !! ij.1
                       = Some dep
                     ∧ strings_of (arr (sample_read_state sample_pkgs)) !! ij.2
                       = Some pkg
                     ∧ line = print_match dep pkg)
          positions (stdout_of trace).
Proof.
  assert (read_file (text sample_deps) = Ok (sample_read_state sample_deps))
    as Hd by (vm_cast_no_check (eq_refl (Ok (sample_read_state sample_deps)))).
  assert (read_file (text sample_pkgs) = Ok (sample_read_state sample_pkgs))
    as Hp by (vm_cast_no_check (eq_refl (Ok (sample_read_state sample_pkgs)))).
  split; [exact Hd|]. split; [exact Hp|].
  exact (output_order (PatternMatcher.pkg_match_int 0)
           (sample_env (text sample_deps) (text sample_pkgs))
           _ _ _ _ _ _ _ eq_refl eq_refl eq_refl Hd Hp).
Defined.

Lemma unmatched_constraints_are_silent_witness :
  read_file (text sample_deps) = Ok (sample_read_state sample_deps)
  ∧ read_file (text sample_pkgs) = Ok (sample_read_state sample_pkgs)
  ∧ ∃ trace,
      main (PatternMatcher.pkg_match_int 0)
        (sample_env (text sample_deps) (text sample_pkgs)) = Ok (0, trace)
      ∧ stderr_of trace = []
      ∧ stdout_of trace =
          match_lines (PatternMatcher.pkg_match_int 0)
            (filter (λ dep, Exists (λ pkg, PatternMatcher.pkg_match_int 0 dep pkg ≠ 0)
                              (strings_of (arr (sample_read_state sample_pkgs))))
               (strings_of (arr (sample_read_state sample_deps))))
            (strings_of (arr (sample_read_state sample_pkgs))).
Proof.
  assert (read_file (text sample_deps) = Ok (sample_read_state sample_deps))
    as Hd by (vm_cast_no_check (eq_refl (Ok (sample_read_state sample_deps)))).
  assert (read_file (text sample_pkgs) = Ok (sample_read_state sample_pkgs))
    as Hp by (vm_cast_no_check (eq_refl (Ok (sample_read_state sample_pkgs)))).
  split; [exact Hd|]. split; [exact Hp|].
  exact (unmatched_constraints_are_silent (PatternMatcher.pkg_match_int 0)
           (sample_env (text sample_deps) (text sample_pkgs))
           _ _ _ _ _ _ _ eq_refl eq_refl eq_refl Hd Hp).
Defined.

(** ** Where the claims about stored lines and malformed lines fail *)

(** C2 as first stated fails in two ways.  In a file holding the line
    [a NUL b] the loop keeps [a], not the three bytes.  In a file holding
    [abc] without a final newline, [strdup] runs past the line that
    [fgetln] returned and the reading phase has no defined result. *)
Lemma lines_not_stored_unchanged :
  ¬ stored_unchanged ["a"%char; NUL; "b"%char; LF]
  ∧ read_file ["a"%char; NUL; "b"%char; LF]
    = Ok (sample_read_state ["a"])
  ∧ ¬ stored_unchanged ["a"%char; "b"%char; "c"%char]
  ∧ read_file ["a"%char; "b"%char; "c"%char] = Undefined ReadPastLine.
Proof.
  split; [|split; [|split]].
  - intros (st & Hread & Hnull).
    apply strings_of_null_terminated in Hnull.
    destruct (read_file_inv _ _ Hread) as (_ & Hnull' & _).
    apply strings_of_null_terminated in Hnull'.
    rewrite Hnull' in Hnull. by vm_compute in Hnull.
  - vm_cast_no_check (eq_refl (Ok (sample_read_state ["a"]))).
  - intros (st & Hread & _). by vm_compute in Hread.
  - by vm_compute.
Qed.

(** C3 as first stated fails: a malformed constraint is neither reported
    nor told apart.  [foo>=] does not parse, [bar>=1.0] parses and matches
    nothing here.  If the matcher answers 0 for a pattern it cannot parse,
    the two runs look the same and print only the match of the constraint
    that follows; if it answers something else, the malformed line is
    printed as a match. *)
Lemma malformed_constraint_not_reported :
  PatternMatcher.parsePattern "foo>=" = PatternMatcher.ParseError
  ∧ PatternMatcher.matchPattern "bar>=1.0" "foo-1.0"
    = PatternMatcher.Parsed false
  ∧ run_with_constraint 0 "foo>=" = run_with_constraint 0 "bar>=1.0"
  ∧ run_with_constraint 0 "foo>="
    = Ok (0, [print_match "foo>=1.0" "foo-1.0"], [])
  ∧ run_with_constraint (-1) "foo>="
    = Ok (0, [print_match "foo>=" "foo-1.0";
              print_match "foo>=1.0" "foo-1.0"], []).
Proof.
  split; [vm_compute; reflexivity|].
  split; [vm_compute; reflexivity|].
  split; [vm_compute; reflexivity|].
  split; vm_compute; reflexivity.
Qed.


(** ** Further properties of the reading loops *)

Lemma read_loop_app fp1 : ∀ fp2 st,
  read_loop st (fp1 ++ fp2) = read_loop st fp1 ≫= λ st', read_loop st' fp2.
Proof.
  induction fp1 as [|dep fp1 IH]; intros fp2 st; simpl; [done|].
  destruct (insert_line st dep) as [st1| |]; simpl; [apply IH|done..].
Qed.

Lemma read_file_cases bytes :
  (∃ st, read_file bytes = Ok st)
  ∨ read_file bytes = Undefined ReadPastLine
  ∨ read_file bytes = Undefined IntOverflow.
Proof.
  unfold read_file.
  destruct (read_loop_cases (file_lines bytes) [] read_init read_init_inv
              (file_lines_nonempty bytes)) as [[st Hloop]|[Hloop|Hloop]];
    rewrite Hloop; simpl; [|by auto..].
  destruct (read_loop_inv _ _ _ _ read_init_inv Hloop) as [_ Hinv].
  destruct (terminate_inv _ _ Hinv) as (st' & Hterm & _).
  left. by exists st'.
Qed.

(** X1: a reading phase stays within defined behaviour, and then runs to
    completion, exactly on the files in which every line ends in a newline
    or holds a NUL byte and whose lines are no more than an [int] can
    count.  On any other file it leaves defined behaviour ([strdup] past a
    line, or the increment of the count at INT_MAX); what a machine does
    from there on is not part of this statement. *)
Theorem reading_completes_iff bytes :
  (∃ st, read_file bytes = Ok st) ↔
  Forall (λ line, last line = Some LF ∨ NUL ∈ line) (file_lines bytes)
  ∧ Z.of_nat (length (file_lines bytes)) ≤ INT_MAX.
Proof.
  split.
  - intros [st Hread].
    destruct (read_file_inv _ _ Hread) as (Hall & _ & Hcnt & Hmax).
    split; [exact Hall | lia].
  - intros [Hall Hfit]. by apply read_file_complete.
Qed.

(** X2: a file whose last line neither ends in a newline nor holds a NUL
    byte makes [strdup] read past the line that [fgetln] returned, however
    well-formed the lines before it are. *)
Theorem unterminated_last_line_overread bytes line :
  last (file_lines bytes) = Some line →
  last line ≠ Some LF → NUL ∉ line →
  Z.of_nat (length (file_lines bytes)) ≤ INT_MAX →
  read_file bytes = Undefined ReadPastLine.
Proof.
  intros Hlast Hnl Hnul Hfit.
  apply last_Some in Hlast as [ls Hlines].
  pose proof (file_lines_init_newline _ _ _ Hlines) as Hinit.
  pose proof (file_lines_nonempty bytes) as Hne.
  unfold read_file. rewrite Hlines in Hfit, Hne |- *.
  apply Forall_app in Hne as [Hne_ls Hne_l].
  inversion Hne_l as [|? ? Hline _]; subst.
  rewrite length_app in Hfit. simpl in Hfit.
  destruct (read_loop_complete ls [] read_init read_init_inv) as [st Hloop].
  - apply Forall_and. split; [done|].
    eapply Forall_impl; [exact Hinit|]. intros l Hl. by left.
  - simpl. lia.
  - rewrite read_loop_app, Hloop. simpl.
    unfold insert_line.
    pose proof (chomp_strdup line Hline) as Hcs.
    rewrite decide_False in Hcs by (unfold terminated; tauto).
    destruct (chomp line) as [buf|u|]; simpl in Hcs |- *.
    + by rewrite Hcs.
    + by injection Hcs as ->.
    + done.
Qed.

(** X3: a file with more usable lines than an [int] can count overflows
    the count [d]: the reading phase ends in the increment of INT_MAX. *)
Theorem too_many_lines_overflow bytes :
  Forall (λ line, last line = Some LF ∨ NUL ∈ line) (file_lines bytes) →
  INT_MAX < Z.of_nat (length (file_lines bytes)) →
  read_file bytes = Undefined IntOverflow.
Proof.
  intros Hall Hbig. unfold read_file.
  rewrite (read_loop_overflow (file_lines bytes) [] read_init); [done| | |].
  - apply read_init_inv.
  - apply Forall_and. split; [apply file_lines_nonempty | exact Hall].
  - simpl. lia.
Qed.

Lemma file_lines_newlines n : file_lines (replicate n LF) = replicate n [LF].
Proof. induction n as [|n IH]; simpl; [done|]. by rewrite IH. Qed.

Lemma unterminated_last_line_overread_witness :
  last (file_lines ["a"%char; "b"%char; "c"%char]) = Some ["a"%char; "b"%char; "c"%char]
  ∧ last ["a"%char; "b"%char; "c"%char] ≠ Some LF
  ∧ (NUL ∉ ["a"%char; "b"%char; "c"%char])
  ∧ Z.of_nat (length (file_lines ["a"%char; "b"%char; "c"%char])) ≤ INT_MAX
  ∧ read_file ["a"%char; "b"%char; "c"%char] = Undefined ReadPastLine.
Proof.
  assert (last (file_lines ["a"%char; "b"%char; "c"%char]) = Some ["a"%char; "b"%char; "c"%char])
    as H1 by reflexivity.
  assert (last ["a"%char; "b"%char; "c"%char] ≠ Some LF) as H2 by discriminate.
  assert (NUL ∉ ["a"%char; "b"%char; "c"%char]) as H3
    by (apply (bool_decide_unpack _); vm_compute; exact I).
  assert (Z.of_nat (length (file_lines ["a"%char; "b"%char; "c"%char])) ≤ INT_MAX) as H4
    by (vm_compute; discriminate).
  exact (conj H1 (conj H2 (conj H3 (conj H4
           (unterminated_last_line_overread _ _ H1 H2 H3 H4))))).
Defined.

Lemma too_many_lines_overflow_witness :
  Forall (λ line, last line = Some LF ∨ NUL ∈ line)
    (file_lines (replicate (Z.to_nat (2 ^ 31)) LF))
  ∧ INT_MAX < Z.of_nat (length (file_lines (replicate (Z.to_nat (2 ^ 31)) LF)))
  ∧ read_file (replicate (Z.to_nat (2 ^ 31)) LF) = Undefined IntOverflow.
Proof.
  assert (Forall (λ line, last line = Some LF ∨ NUL ∈ line)
            (file_lines (replicate (Z.to_nat (2 ^ 31)) LF))) as H1.
  { rewrite file_lines_newlines. apply Forall_replicate. left. reflexivity. }
  assert (INT_MAX
          < Z.of_nat (length (file_lines (replicate (Z.to_nat (2 ^ 31)) LF))))
    as H2.
  { rewrite file_lines_newlines, length_replicate, Z2Nat.id.
    - reflexivity.
    - discriminate. }
  exact (conj H1 (conj H2 (too_many_lines_overflow _ H1 H2))).
Defined.

(** ** What a run never does *)

(** X4: whatever the arguments, the files and the matcher are, a run ends
    with exit status 0 or 1, or leaves defined behaviour in one of two
    places: [strdup] on a line without end, or the increment of a count at
    INT_MAX.  It never accesses an array outside its cells, never reads a
    cell it has not written, never hands NULL to [pkg_match] or [printf],
    and its loops end. *)
Theorem main_outcomes pkg_match e :
  match main pkg_match e with
  | Ok (status, _) => status = 0 ∨ status = 1
  | Undefined u => u = ReadPastLine ∨ u = IntOverflow
  | OutOfFuel => False
  end.
Proof.
  unfold main.
  destruct (decide (Z.of_nat (length (argv e)) ≠ 3)) as [|Hargc]; [by right|].
  destruct (argv e) as [|a0 [|a1 [|a2 [|a3 ?]]]]; simpl in Hargc; try lia.
  simpl.
  destruct (fopen e a1) as [dbytes|], (fopen e a2) as [pbytes|];
    try (by right).
  destruct (read_file_cases dbytes) as [[ds Hds]|[Hds|Hds]];
    rewrite Hds; simpl; [|by auto..].
  destruct (read_file_cases pbytes) as [[ps Hps]|[Hps|Hps]];
    rewrite Hps; simpl; [|by auto..].
  destruct (read_file_inv _ _ Hds) as (_ & Hdnull & Hdcnt & Hdmax).
  destruct (read_file_inv _ _ Hps) as (_ & Hpnull & Hpcnt & Hpmax).
  destruct (match_phase_spec pkg_match (arr ds) (arr ps) _ _ (cnt ps)
              Hdnull Hpnull) as [p' Hphase].
  - rewrite length_fmap. lia.
  - rewrite length_fmap. lia.
  - rewrite Hphase. simpl. by left.
Qed.

(** ** Text files *)

Lemma file_lines_line l rest :
  LF ∉ l → file_lines (l ++ LF :: rest) = (l ++ [LF]) :: file_lines rest.
Proof.
  induction l as [|c l IH]; intros Hnl; simpl; [done|].
  apply not_elem_of_cons in Hnl as [Hc Hl].
  destruct (Ascii.eqb_spec c LF) as [->|_]; [done|].
  by rewrite IH.
Qed.

Lemma file_lines_text ss :
  Forall (λ s, LF ∉ list_ascii_of_string s) ss →
  file_lines (text ss) = (λ s, list_ascii_of_string s ++ [LF]) <$> ss.
Proof.
  unfold text. induction 1 as [|s ss Hs _ IH]; [done|].
  rewrite bind_cons, fmap_cons, <- (assoc (++)). simpl.
  by rewrite file_lines_line, IH.
Qed.

Lemma kept_of_line_newline l :
  NUL ∉ l → kept_of_line (l ++ [LF]) = string_of_list_ascii l.
Proof.
  intros Hnul. rewrite kept_of_line_text.
  - unfold without_newline. rewrite last_snoc, decide_True by done.
    rewrite length_app. simpl.
    replace (length l + 1 - 1)%nat with (length l) by lia.
    by rewrite take_app_length.
  - intros [Hin|Hin]%elem_of_app; [done|].
    by apply list_elem_of_singleton in Hin.
Qed.

Lemma kept_of_text_lines ss :
  Forall (λ s, NUL ∉ list_ascii_of_string s) ss →
  kept_of_line <$> ((λ s, list_ascii_of_string s ++ [LF]) <$> ss) = ss.
Proof.
  induction 1 as [|s ss Hs _ IH]; [done|].
  rewrite !fmap_cons, IH. f_equal.
  by rewrite kept_of_line_newline, string_of_list_ascii_of_string.
Qed.

(** X5: a text file is read back as written.  When the strings [ss] hold
    neither newline nor NUL bytes and are no more than an [int] can count,
    reading the file that holds each of them followed by a newline
    completes and leaves exactly [ss] in the array, in order, empty strings
    included, with the count equal to their number. *)
Theorem text_file_read_back ss :
  Forall (λ s, (LF ∉ list_ascii_of_string s) ∧ (NUL ∉ list_ascii_of_string s)) ss →
  Z.of_nat (length ss) ≤ INT_MAX →
  ∃ st, read_file (text ss) = Ok st
        ∧ strings_of (arr st) = ss
        ∧ cnt st = Z.of_nat (length ss).
Proof.
  intros Hss Hfit.
  apply Forall_and in Hss as [Hnl Hnul].
  pose proof (file_lines_text ss Hnl) as Hlines.
  destruct (read_file_complete (text ss)) as [st Hread].
  - rewrite Hlines. apply Forall_fmap. apply Forall_true. intros s. left.
    apply last_snoc.
  - by rewrite Hlines, length_fmap.
  - exists st. split; [done|].
    destruct (read_file_inv _ _ Hread) as (_ & Hnull & Hcnt & _).
    rewrite (strings_of_null_terminated _ _ Hnull), Hcnt, Hlines.
    rewrite length_fmap. split; [|done]. by apply kept_of_text_lines.
Qed.

Lemma text_file_read_back_witness :
  Forall (λ s, (LF ∉ list_ascii_of_string s) ∧ (NUL ∉ list_ascii_of_string s))
    ["foo>=1.0"; ""; "bar-[0-9]*"]%string
  ∧ Z.of_nat (length ["foo>=1.0"; ""; "bar-[0-9]*"]%string) ≤ INT_MAX
  ∧ ∃ st, read_file (text ["foo>=1.0"; ""; "bar-[0-9]*"]%string) = Ok st
          ∧ strings_of (arr st) = ["foo>=1.0"; ""; "bar-[0-9]*"]%string
          ∧ cnt st = Z.of_nat (length ["foo>=1.0"; ""; "bar-[0-9]*"]%string).
Proof.
  assert (Forall (λ s, (LF ∉ list_ascii_of_string s) ∧ (NUL ∉ list_ascii_of_string s))
            ["foo>=1.0"; ""; "bar-[0-9]*"]%string) as H1
    by (apply (bool_decide_unpack _); vm_compute; exact I).
  assert (Z.of_nat (length ["foo>=1.0"; ""; "bar-[0-9]*"]%string) ≤ INT_MAX)
    as H2 by (vm_compute; discriminate).
  exact (conj H1 (conj H2 (text_file_read_back _ H1 H2))).
Defined.

(** ** Edge cases and composition of the output *)

Lemma match_lines_no_pkgs pkg_match deps : match_lines pkg_match deps [] = [].
Proof.
  unfold match_lines. induction deps as [|dep deps IH]; [done|].
  by rewrite bind_cons, IH.
Qed.

Lemma read_file_empty st : read_file [] = Ok st → strings_of (arr st) = [].
Proof.
  intros Hread. destruct (read_file_inv _ _ Hread) as (_ & Hnull & _).
  by rewrite (strings_of_null_terminated _ _ Hnull).
Qed.

(** X6: an empty file on either side gives an empty output.  With an empty
    dependency file the outer loop stops at once; with an empty package
    file every inner loop does; the program prints nothing and exits with
    status 0. *)
Theorem empty_file_prints_nothing pkg_match e prog path1 path2 dbytes pbytes ds ps :
  argv e = [prog; path1; path2] →
  fopen e path1 = Some dbytes → fopen e path2 = Some pbytes →
  read_file dbytes = Ok ds → read_file pbytes = Ok ps →
  dbytes = [] ∨ pbytes = [] →
  ∃ trace, main pkg_match e = Ok (0, trace) ∧ stdout_of trace = [].
Proof.
  intros Hargv Hd Hp Hds Hps Hempty.
  destruct (main_run_stdout pkg_match e _ _ _ _ _ _ _ Hargv Hd Hp Hds Hps)
    as (trace & Hmain & Hout & _).
  exists trace. split; [done|]. rewrite Hout.
  destruct Hempty as [-> | ->].
  - by rewrite (read_file_empty _ Hds).
  - rewrite (read_file_empty _ Hps). apply match_lines_no_pkgs.
Qed.

Lemma empty_file_prints_nothing_witness :
  read_file (text sample_deps) = Ok (sample_read_state sample_deps)
  ∧ read_file [] = Ok (sample_read_state [])
  ∧ (text sample_deps = [] ∨ @nil ascii = [])
  ∧ ∃ trace,
      main (PatternMatcher.pkg_match_int 0) (sample_env (text sample_deps) [])
        = Ok (0, trace)
      ∧ stdout_of trace = [].
Proof.
  assert (read_file (text sample_deps) = Ok (sample_read_state sample_deps))
    as Hd by (vm_cast_no_check (eq_refl (Ok (sample_read_state sample_deps)))).
  assert (read_file [] = Ok (sample_read_state []))
    as Hp by (vm_cast_no_check (eq_refl (Ok (sample_read_state [])))).
  assert (text sample_deps = [] ∨ @nil ascii = []) as He by (right; reflexivity).
  split; [exact Hd|]. split; [exact Hp|]. split; [exact He|].
  exact (empty_file_prints_nothing (PatternMatcher.pkg_match_int 0)
           (sample_env (text sample_deps) [])
           _ _ _ _ _ _ _ eq_refl eq_refl eq_refl Hd Hp He).
Defined.

Lemma file_lines_app b1 b2 :
  b1 = [] ∨ last b1 = Some LF →
  file_lines (b1 ++ b2) = file_lines b1 ++ file_lines b2.
Proof.
  intros [->|Hlast]; [done|].
  induction b1 as [|c b1 IH]; [done|]. simpl.
  destruct (Ascii.eqb_spec c LF) as [->|Hc].
  - destruct b1 as [|c' b1]; [done|].
    rewrite IH; [done|]. by rewrite last_cons_cons in Hlast.
  - destruct b1 as [|c' b1]; [simpl in Hlast; congruence|].
    rewrite IH by (by rewrite last_cons_cons in Hlast).
    destruct (file_lines (c' :: b1)) as [|l ls] eqn:Hl; [|done].
    pose proof (file_lines_concat (c' :: b1)) as Hcat.
    by rewrite Hl in Hcat.
Qed.

Lemma match_lines_app pkg_match ds1 ds2 ps :
  match_lines pkg_match (ds1 ++ ds2) ps =
  match_lines pkg_match ds1 ps ++ match_lines pkg_match ds2 ps.
Proof. unfold match_lines. apply bind_app. Qed.

(** X7: the output for a dependency file made of two parts is the output
    for the first part followed by the output for the second.  If the first
    part ends in a newline and the reading of the whole file completes, so
    does the reading of each part, the strings stored for the whole are
    those of the parts one after the other, and so are the printed lines. *)
Theorem deps_file_concatenation pkg_match b1 b2 pbytes st ps :
  b1 = [] ∨ last b1 = Some LF →
  read_file (b1 ++ b2) = Ok st →
  read_file pbytes = Ok ps →
  ∃ st1 st2 t t1 t2,
    read_file b1 = Ok st1 ∧ read_file b2 = Ok st2
    ∧ strings_of (arr st) = strings_of (arr st1) ++ strings_of (arr st2)
    ∧ main pkg_match (sample_env (b1 ++ b2) pbytes) = Ok (0, t)
    ∧ main pkg_match (sample_env b1 pbytes) = Ok (0, t1)
    ∧ main pkg_match (sample_env b2 pbytes) = Ok (0, t2)
    ∧ stdout_of t = stdout_of t1 ++ stdout_of t2.
Proof.
  intros Hend Hread Hps.
  destruct (read_file_inv _ _ Hread) as (Hall & Hnull & Hcnt & Hmax).
  rewrite file_lines_app in Hall, Hnull, Hcnt by done.
  apply Forall_app in Hall as [Hall1 Hall2].
  rewrite length_app in Hcnt.
  destruct (read_file_complete b1) as [st1 Hst1]; [done|lia|].
  destruct (read_file_complete b2) as [st2 Hst2]; [done|lia|].
  destruct (read_file_inv _ _ Hst1) as (_ & Hnull1 & _).
  destruct (read_file_inv _ _ Hst2) as (_ & Hnull2 & _).
  assert (strings_of (arr st) = strings_of (arr st1) ++ strings_of (arr st2))
    as Hstr.
  { rewrite (strings_of_null_terminated _ _ Hnull),
      (strings_of_null_terminated _ _ Hnull1),
      (strings_of_null_terminated _ _ Hnull2).
    apply fmap_app. }
  destruct (main_run_stdout pkg_match (sample_env (b1 ++ b2) pbytes)
              _ _ _ _ _ _ _ eq_refl eq_refl eq_refl Hread Hps)
    as (t & Ht & Hout & _).
  destruct (main_run_stdout pkg_match (sample_env b1 pbytes)
              _ _ _ _ _ _ _ eq_refl eq_refl eq_refl Hst1 Hps)
    as (t1 & Ht1 & Hout1 & _).
  destruct (main_run_stdout pkg_match (sample_env b2 pbytes)
              _ _ _ _ _ _ _ eq_refl eq_refl eq_refl Hst2 Hps)
    as (t2 & Ht2 & Hout2 & _).
  exists st1, st2, t, t1, t2.
  repeat (split; [done|]).
  by rewrite Hout, Hout1, Hout2, Hstr, match_lines_app.
Qed.

Lemma deps_file_concatenation_witness :
  (text ["foo>=1.0"] = [] ∨ last (text ["foo>=1.0"]) = Some LF)
  ∧ read_file (text ["foo>=1.0"] ++ text ["bar<2"; "foo>="])
    = Ok (sample_read_state sample_deps)
  ∧ read_file (text sample_pkgs) = Ok (sample_read_state sample_pkgs)
  ∧ ∃ st1 st2 t t1 t2,
      read_file (text ["foo>=1.0"]) = Ok st1
      ∧ read_file (text ["bar<2"; "foo>="]) = Ok st2
      ∧ strings_of (arr (sample_read_state sample_deps))
        = strings_of (arr st1) ++ strings_of (arr st2)
      ∧ main (PatternMatcher.pkg_match_int 0)
          (sample_env (text ["foo>=1.0"] ++ text ["bar<2"; "foo>="])
             (text sample_pkgs)) = Ok (0, t)
      ∧ main (PatternMatcher.pkg_match_int 0)
          (sample_env (text ["foo>=1.0"]) (text sample_pkgs)) = Ok (0, t1)
      ∧ main (PatternMatcher.pkg_match_int 0)
          (sample_env (text ["bar<2"; "foo>="]) (text sample_pkgs)) = Ok (0, t2)
      ∧ stdout_of t = stdout_of t1 ++ stdout_of t2.
Proof.
  assert (text ["foo>=1.0"] = [] ∨ last (text ["foo>=1.0"]) = Some LF) as H1
    by (right; reflexivity).
  assert (read_file (text ["foo>=1.0"] ++ text ["bar<2"; "foo>="])
          = Ok (sample_read_state sample_deps)) as H2
    by (vm_cast_no_check (eq_refl (Ok (sample_read_state sample_deps)))).
  assert (read_file (text sample_pkgs) = Ok (sample_read_state sample_pkgs))
    as H3 by (vm_cast_no_check (eq_refl (Ok (sample_read_state sample_pkgs)))).
  split; [exact H1|]. split; [exact H2|]. split; [exact H3|].
  exact (deps_file_concatenation (PatternMatcher.pkg_match_int 0)
           _ _ _ _ _ H1 H2 H3).
Defined.

(** ** Insertion and lookup *)

(** X8: an insertion puts the new string at the index that was the count
    and leaves every earlier entry where it was, also when it reallocates:
    after it, the first entries of the array are the strings kept of the
    lines read so far, in order, followed by the one kept of the new
    line. *)
Theorem insertion_keeps_entries fp st dep st' :
  read_loop read_init fp = Ok st →
  insert_line st dep = Ok st' →
  take (length fp) (arr st) = Str <$> (kept_of_line <$> fp)
  ∧ take (length fp) (arr st') = take (length fp) (arr st)
  ∧ arr st' !! length fp = Some (Str (kept_of_line dep)).
Proof.
  intros Hloop Hins.
  destruct (read_loop_inv _ _ _ _ read_init_inv Hloop) as [_ Hinv].
  destruct (insert_line_inv _ _ _ _ Hinv Hins) as (_ & _ & Hinv' & _).
  destruct Hinv as [_ _ _ _ _ _ Harr].
  destruct Hinv' as [_ _ _ _ _ _ Harr'].
  rewrite app_nil_l in Harr, Harr'.
  rewrite length_fmap in Harr.
  rewrite length_app, length_fmap in Harr'. simpl in Harr'.
  split; [done|].
  assert (take (length fp) (arr st') = Str <$> (kept_of_line <$> fp)) as Hpre.
  { replace (length fp) with (min (length fp) (length fp + 1)) at 1 by lia.
    rewrite <- take_take, Harr', fmap_app.
    rewrite take_app_length'; [done|]. by rewrite !length_fmap. }
  split; [by rewrite Hpre, Harr|].
  rewrite <- (lookup_take_lt (arr st') (length fp + 1)) by lia.
  rewrite Harr', fmap_app.
  rewrite lookup_app_r by (by rewrite !length_fmap).
  by rewrite !length_fmap, Nat.sub_diag.
Qed.

Lemma insertion_keeps_entries_witness :
  read_loop read_init (file_lines (text sample_deps))
    = Ok (sample_loop_state sample_deps)
  ∧ insert_line (sample_loop_state sample_deps) (text ["baz-[0-9]*"])
    = Ok (sample_loop_state (sample_deps ++ ["baz-[0-9]*"]))
  ∧ take (length (file_lines (text sample_deps)))
      (arr (sample_loop_state sample_deps))
    = Str <$> (kept_of_line <$> file_lines (text sample_deps))
  ∧ take (length (file_lines (text sample_deps)))
      (arr (sample_loop_state (sample_deps ++ ["baz-[0-9]*"])))
    = take (length (file_lines (text sample_deps)))
        (arr (sample_loop_state sample_deps))
  ∧ arr (sample_loop_state (sample_deps ++ ["baz-[0-9]*"]))
      !! length (file_lines (text sample_deps))
    = Some (Str (kept_of_line (text ["baz-[0-9]*"]))).
Proof.
  assert (read_loop read_init (file_lines (text sample_deps))
          = Ok (sample_loop_state sample_deps)) as Hloop
    by (vm_cast_no_check (eq_refl (Ok (sample_loop_state sample_deps)))).
  assert (insert_line (sample_loop_state sample_deps) (text ["baz-[0-9]*"])
          = Ok (sample_loop_state (sample_deps ++ ["baz-[0-9]*"]))) as Hins
    by (vm_cast_no_check
          (eq_refl (Ok (sample_loop_state (sample_deps ++ ["baz-[0-9]*"]))))).
  split; [exact Hloop|]. split; [exact Hins|].
  exact (insertion_keeps_entries _ _ _ _ Hloop Hins).
Defined.

(** ** The matching loops on arbitrary arrays *)

(** X9: the matching phase looks at nothing behind the first NULL of either
    array.  Whatever the cells after the terminators hold (unwritten cells,
    stale pointers), the phase completes, prints the matches of the strings
    in front of the terminators and leaves [d] at the terminator of the
    dependency array. *)
Theorem matching_stops_at_null pkg_match ds ps restd restp p :
  Z.of_nat (length ds) ≤ INT_MAX → Z.of_nat (length ps) ≤ INT_MAX →
  ∃ st,
    match_phase pkg_match ((Str <$> ds) ++ Null :: restd)
      ((Str <$> ps) ++ Null :: restp) p = Ok st
    ∧ m_stdout st = match_lines pkg_match ds ps
    ∧ m_d st = Z.of_nat (length ds).
Proof.
  intros Hdfit Hpfit.
  destruct (match_phase_spec pkg_match ((Str <$> ds) ++ Null :: restd)
              ((Str <$> ps) ++ Null :: restp) ds ps p) as [p' Hphase];
    [by exists restd | by exists restp | done | done |].
  eexists. split; [exact Hphase|]. done.
Qed.

Lemma matching_stops_at_null_witness :
  Z.of_nat (length ["foo>=1.0"%string]) ≤ INT_MAX
  ∧ Z.of_nat (length ["foo-1.5"%string; "foo-0.1"%string]) ≤ INT_MAX
  ∧ ∃ st,
      match_phase (PatternMatcher.pkg_match_int 0)
        ((Str <$> ["foo>=1.0"%string]) ++ Null :: [Indet; Str "bar<2"])
        ((Str <$> ["foo-1.5"%string; "foo-0.1"%string])
           ++ Null :: [Str "bar-1.0"; Indet]) 7 = Ok st
      ∧ m_stdout st
        = match_lines (PatternMatcher.pkg_match_int 0)
            ["foo>=1.0"%string] ["foo-1.5"%string; "foo-0.1"%string]
      ∧ m_d st = Z.of_nat (length ["foo>=1.0"%string]).
Proof.
  assert (Z.of_nat (length ["foo>=1.0"%string]) ≤ INT_MAX) as H1
    by (vm_compute; discriminate).
  assert (Z.of_nat (length ["foo-1.5"%string; "foo-0.1"%string]) ≤ INT_MAX)
    as H2 by (vm_compute; discriminate).
  exact (conj H1 (conj H2
           (matching_stops_at_null (PatternMatcher.pkg_match_int 0)
              _ _ _ _ 7 H1 H2))).
Defined.

Lemma match_step_truth pm1 pm2 st :
  (∀ dep pkg, pm1 dep pkg = 0 ↔ pm2 dep pkg = 0) →
  match_step pm1 st = match_step pm2 st.
Proof.
  intros Hagree. unfold match_step.
  destruct (load (m_deps st) (m_d st) ≫= string_at) as [dep| |]; [|done..].
  destruct (load (m_pkgs st) (m_p st) ≫= string_at) as [pkg| |]; [|done..].
  simpl.
  destruct (decide (pm1 dep pkg ≠ 0)) as [H1|H1],
           (decide (pm2 dep pkg ≠ 0)) as [H2|H2]; try done.
  - exfalso. apply H1. apply Hagree. lia.
  - exfalso. apply H2. apply Hagree. lia.
Qed.

Lemma inner_loop_truth pm1 pm2 fuel :
  (∀ dep pkg, pm1 dep pkg = 0 ↔ pm2 dep pkg = 0) →
  ∀ st, inner_loop pm1 fuel st = inner_loop pm2 fuel st.
Proof.
  intros Hagree. induction fuel as [|fuel IH]; intros st; simpl; [done|].
  destruct (load (m_pkgs st) (m_p st)) as [c| |]; simpl; [|done..].
  rewrite (match_step_truth pm1 pm2 st Hagree).
  destruct c; [|done|];
    (destruct (match_step pm2 st) as [st1| |]; simpl; [apply IH|done..]).
Qed.

Lemma outer_loop_truth pm1 pm2 fuel :
  (∀ dep pkg, pm1 dep pkg = 0 ↔ pm2 dep pkg = 0) →
  ∀ st, outer_loop pm1 fuel st = outer_loop pm2 fuel st.
Proof.
  intros Hagree. induction fuel as [|fuel IH]; intros st; simpl; [done|].
  destruct (load (m_deps st) (m_d st)) as [c| |]; simpl; [|done..].
  assert (outer_step pm1 st = outer_step pm2 st) as Hstep.
  { unfold outer_step. by rewrite (inner_loop_truth pm1 pm2 _ Hagree). }
  rewrite Hstep.
  destruct c; [|done|];
    (destruct (outer_step pm2 st) as [st1| |]; simpl; [apply IH|done..]).
Qed.

(** X10: only the truth value of what [pkg_match] returns matters.  Two
    matchers that return 0 on the same pairs, whatever nonzero numbers
    (negative ones included) they return elsewhere, give the same run:
    the same exit status and the same trace, or the same undefined
    behaviour. *)
Theorem only_truth_value_matters pm1 pm2 e :
  (∀ dep pkg, pm1 dep pkg = 0 ↔ pm2 dep pkg = 0) →
  main pm1 e = main pm2 e.
Proof.
  intros Hagree. unfold main, match_phase.
  destruct (decide (Z.of_nat (length (argv e)) ≠ 3)); [done|].
  destruct (argv e !! 1%nat) as [path1|]; [|done].
  destruct (argv e !! 2%nat) as [path2|]; [|done].
  destruct (fopen e path1) as [dbytes|], (fopen e path2) as [pbytes|]; try done.
  destruct (read_file dbytes) as [ds| |]; [|done..].
  destruct (read_file pbytes) as [ps| |]; [|done..].
  cbn [mbind result_bind]. by rewrite (outer_loop_truth pm1 pm2 _ Hagree).
Qed.

Lemma only_truth_value_matters_witness :
  (∀ dep pkg,
     PatternMatcher.pkg_match_int 0 dep pkg = 0
     ↔ -7 * PatternMatcher.pkg_match_int 0 dep pkg = 0)
  ∧ main (PatternMatcher.pkg_match_int 0)
      (sample_env (text sample_deps) (text sample_pkgs))
    = main (λ dep pkg, -7 * PatternMatcher.pkg_match_int 0 dep pkg)
        (sample_env (text sample_deps) (text sample_pkgs)).
Proof.
  assert (∀ dep pkg,
            PatternMatcher.pkg_match_int 0 dep pkg = 0
            ↔ -7 * PatternMatcher.pkg_match_int 0 dep pkg = 0) as H
    by (intros dep pkg; lia).
  exact (conj H
           (only_truth_value_matters (PatternMatcher.pkg_match_int 0)
              (λ dep pkg, -7 * PatternMatcher.pkg_match_int 0 dep pkg)
              (sample_env (text sample_deps) (text sample_pkgs)) H)).
Defined.

(** ** Bounds *)

(** X11: a reading loop never holds more than twice the cells it needs,
    once past the initial 32768, and never more than 2^31 cells, so that
    the byte size handed to [xmalloc] and [xrealloc] never wraps around in
    [size_t]. *)
Theorem capacity_bound fp st :
  read_loop read_init fp = Ok st →
  (cap st = 32768 ∨ cap st ≤ 2 * Z.of_nat (length fp))
  ∧ cap st ≤ 2 ^ 31
  ∧ size_mul (cap st) sizeof_ptr = cap st * 8.
Proof.
  intros Hloop.
  destruct (read_loop_inv _ _ _ _ read_init_inv Hloop) as [_ Hinv].
  pose proof (read_inv_cap_bound _ _ Hinv) as Hcap.
  destruct Hinv as [Hcnt _ _ _ [k Hpow] Htight _].
  rewrite app_nil_l, length_fmap in Hcnt.
  assert (cap st ≤ 2 ^ 31) as Hle.
  { destruct (decide (Z.of_nat k ≤ 16)) as [Hk|Hk].
    - rewrite Hpow. change (2 ^ 31) with (32768 * 2 ^ 16).
      apply Z.mul_le_mono_nonneg_l; [lia|].
      apply Z.pow_le_mono_r; lia.
    - assert (2 ^ 17 ≤ 2 ^ Z.of_nat k) as Hbig
        by (apply Z.pow_le_mono_r; lia).
      change (2 ^ 17) with 131072 in Hbig.
      change (2 ^ 32) with 4294967296 in Hcap. lia. }
  split; [|split; [done|]].
  - unfold INITIAL_SIZE in Htight. lia.
  - unfold sizeof_ptr. apply size_mul_small.
    change (2 ^ 31) with 2147483648 in Hle.
    change (2 ^ 64) with 18446744073709551616. lia.
Qed.

Lemma capacity_bound_witness :
  read_loop read_init (file_lines (text sample_deps))
    = Ok (sample_loop_state sample_deps)
  ∧ (cap (sample_loop_state sample_deps) = 32768
     ∨ cap (sample_loop_state sample_deps)
       ≤ 2 * Z.of_nat (length (file_lines (text sample_deps))))
  ∧ cap (sample_loop_state sample_deps) ≤ 2 ^ 31
  ∧ size_mul (cap (sample_loop_state sample_deps)) sizeof_ptr
    = cap (sample_loop_state sample_deps) * 8.
Proof.
  assert (read_loop read_init (file_lines (text sample_deps))
          = Ok (sample_loop_state sample_deps)) as Hloop
    by (vm_cast_no_check (eq_refl (Ok (sample_loop_state sample_deps)))).
  exact (conj Hloop (capacity_bound _ _ Hloop)).
Defined.

(** X12: the program prints at most one line per pair: the number of
    printed lines is at most the number of stored constraints times the
    number of stored packages. *)
Theorem output_size_bound pkg_match e prog path1 path2 dbytes pbytes ds ps :
  argv e = [prog; path1; path2] →
  fopen e path1 = Some dbytes → fopen e path2 = Some pbytes →
  read_file dbytes = Ok ds → read_file pbytes = Ok ps →
  ∃ trace,
    main pkg_match e = Ok (0, trace)
    ∧ (length (stdout_of trace)
       ≤ length (strings_of (arr ds)) * length (strings_of (arr ps)))%nat.
Proof.
  intros Hargv Hd Hp Hds Hps.
  destruct (main_run_stdout pkg_match e _ _ _ _ _ _ _ Hargv Hd Hp Hds Hps)
    as (trace & Hmain & Hout & _).
  exists trace. split; [done|].
  rewrite Hout, match_lines_list_prod, length_fmap.
  etransitivity; [apply length_filter|]. by rewrite length_prod.
Qed.

Lemma output_size_bound_witness :
  read_file (text sample_deps) = Ok (sample_read_state sample_deps)
  ∧ read_file (text sample_pkgs) = Ok (sample_read_state sample_pkgs)
  ∧ ∃ trace,
      main (PatternMatcher.pkg_match_int 0)
        (sample_env (text sample_deps) (text sample_pkgs)) = Ok (0, trace)
      ∧ (length (stdout_of trace)
         ≤ length (strings_of (arr (sample_read_state sample_deps)))
           * length (strings_of (arr (sample_read_state sample_pkgs))))%nat.
Proof.
  assert (read_file (text sample_deps) = Ok (sample_read_state sample_deps))
    as Hd by (vm_cast_no_check (eq_refl (Ok (sample_read_state sample_deps)))).
  assert (read_file (text sample_pkgs) = Ok (sample_read_state sample_pkgs))
    as Hp by (vm_cast_no_check (eq_refl (Ok (sample_read_state sample_pkgs)))).
  split; [exact Hd|]. split; [exact Hp|].
  exact (output_size_bound (PatternMatcher.pkg_match_int 0)
           (sample_env (text sample_deps) (text sample_pkgs))
           _ _ _ _ _ _ _ eq_refl eq_refl eq_refl Hd Hp).
Defined.

(** ** Reordering the input *)

Lemma match_lines_Permutation pkg_match ds ds' ps ps' :
  ds ≡ₚ ds' → ps ≡ₚ ps' →
  match_lines pkg_match ds ps ≡ₚ match_lines pkg_match ds' ps'.
Proof.
  intros Hds Hps. unfold match_lines.
  transitivity (ds ≫= λ dep, matches_of pkg_match dep ps').
  - clear Hds. induction ds as [|dep ds IH]; [done|].
    rewrite !bind_cons. apply Permutation_app; [|done].
    unfold matches_of. by rewrite Hps.
  - by rewrite Hds.
Qed.

(** X13: reordering the lines of the input files only reorders the output.
    If two pairs of files are read into the same strings up to order, the
    two runs print the same lines up to order. *)
Theorem reordered_input_reorders_output pkg_match d d' p p' ds ds' ps ps' :
  read_file d = Ok ds → read_file d' = Ok ds' →
  read_file p = Ok ps → read_file p' = Ok ps' →
  strings_of (arr ds) ≡ₚ strings_of (arr ds') →
  strings_of (arr ps) ≡ₚ strings_of (arr ps') →
  ∃ t t',
    main pkg_match (sample_env d p) = Ok (0, t)
    ∧ main pkg_match (sample_env d' p') = Ok (0, t')
    ∧ stdout_of t ≡ₚ stdout_of t'.
Proof.
  intros Hd Hd' Hp Hp' Hds Hps.
  destruct (main_run_stdout pkg_match (sample_env d p)
              _ _ _ _ _ _ _ eq_refl eq_refl eq_refl Hd Hp)
    as (t & Ht & Hout & _).
  destruct (main_run_stdout pkg_match (sample_env d' p')
              _ _ _ _ _ _ _ eq_refl eq_refl eq_refl Hd' Hp')
    as (t' & Ht' & Hout' & _).
  exists t, t'. split; [done|]. split; [done|].
  rewrite Hout, Hout'. by apply match_lines_Permutation.
Qed.

Lemma reordered_input_reorders_output_witness :
  read_file (text sample_deps) = Ok (sample_read_state sample_deps)
  ∧ read_file (text (reverse sample_deps))
    = Ok (sample_read_state (reverse sample_deps))
  ∧ read_file (text sample_pkgs) = Ok (sample_read_state sample_pkgs)
  ∧ read_file (text (reverse sample_pkgs))
    = Ok (sample_read_state (reverse sample_pkgs))
  ∧ strings_of (arr (sample_read_state sample_deps))
    ≡ₚ strings_of (arr (sample_read_state (reverse sample_deps)))
  ∧ strings_of (arr (sample_read_state sample_pkgs))
    ≡ₚ strings_of (arr (sample_read_state (reverse sample_pkgs)))
  ∧ ∃ t t',
      main (PatternMatcher.pkg_match_int 0)
        (sample_env (text sample_deps) (text sample_pkgs)) = Ok (0, t)
      ∧ main (PatternMatcher.pkg_match_int 0)
          (sample_env (text (reverse sample_deps)) (text (reverse sample_pkgs)))
        = Ok (0, t')
      ∧ stdout_of t ≡ₚ stdout_of t'.
Proof.
  assert (read_file (text sample_deps) = Ok (sample_read_state sample_deps))
    as H1 by (vm_cast_no_check (eq_refl (Ok (sample_read_state sample_deps)))).
  assert (read_file (text (reverse sample_deps))
          = Ok (sample_read_state (reverse sample_deps)))
    as H2 by (vm_cast_no_check
                (eq_refl (Ok (sample_read_state (reverse sample_deps))))).
  assert (read_file (text sample_pkgs) = Ok (sample_read_state sample_pkgs))
    as H3 by (vm_cast_no_check (eq_refl (Ok (sample_read_state sample_pkgs)))).
  assert (read_file (text (reverse sample_pkgs))
          = Ok (sample_read_state (reverse sample_pkgs)))
    as H4 by (vm_cast_no_check
                (eq_refl (Ok (sample_read_state (reverse sample_pkgs))))).
  assert (strings_of (arr (sample_read_state sample_deps))
          ≡ₚ strings_of (arr (sample_read_state (reverse sample_deps)))) as H5.
  { change (sample_deps ≡ₚ reverse sample_deps). by rewrite reverse_Permutation. }
  assert (strings_of (arr (sample_read_state sample_pkgs))
          ≡ₚ strings_of (arr (sample_read_state (reverse sample_pkgs)))) as H6.
  { change (sample_pkgs ≡ₚ reverse sample_pkgs). by rewrite reverse_Permutation. }
  split; [exact H1|]. split; [exact H2|]. split; [exact H3|].
  split; [exact H4|]. split; [exact H5|]. split; [exact H6|].
  exact (reordered_input_reorders_output (PatternMatcher.pkg_match_int 0)
           _ _ _ _ _ _ _ _ H1 H2 H3 H4 H5 H6).
Defined.

(** ** From the files to the output *)

(** X14: the whole program on text files.  With three arguments and two
    files that hold one string per line, the strings free of newline and
    NUL bytes and no more of them than an [int] can count, the program
    runs to its end with exit status 0, writes nothing to standard error
    and prints, constraint after constraint, one line for each package
    that [pkg_match] accepts for it. *)
Theorem text_files_end_to_end pkg_match e prog path1 path2 ds ps :
  argv e = [prog; path1; path2] →
  fopen e path1 = Some (text ds) → fopen e path2 = Some (text ps) →
  Forall (λ s, (LF ∉ list_ascii_of_string s) ∧ (NUL ∉ list_ascii_of_string s))
    (ds ++ ps) →
  Z.of_nat (length ds) ≤ INT_MAX → Z.of_nat (length ps) ≤ INT_MAX →
  ∃ trace,
    main pkg_match e = Ok (0, trace)
    ∧ stderr_of trace = []
    ∧ stdout_of trace =
        ds ≫= λ dep,
          print_match dep <$> filter (λ pkg, pkg_match dep pkg ≠ 0) ps.
Proof.
  intros Hargv Hd Hp Hclean Hdfit Hpfit.
  apply Forall_app in Hclean as [Hds Hps].
  apply Forall_and in Hds as [Hdnl Hdnul].
  apply Forall_and in Hps as [Hpnl Hpnul].
  pose proof (file_lines_text ds Hdnl) as Hdlines.
  pose proof (file_lines_text ps Hpnl) as Hplines.
  destruct (read_file_complete (text ds)) as [std Hstd].
  { rewrite Hdlines. apply Forall_fmap, Forall_true. intros s. left.
    apply last_snoc. }
  { by rewrite Hdlines, length_fmap. }
  destruct (read_file_complete (text ps)) as [stp Hstp].
  { rewrite Hplines. apply Forall_fmap, Forall_true. intros s. left.
    apply last_snoc. }
  { by rewrite Hplines, length_fmap. }
  destruct (main_run_stdout pkg_match e _ _ _ _ _ _ _ Hargv Hd Hp Hstd Hstp)
    as (trace & Hmain & Hout & Herr).
  exists trace. split; [done|]. split; [done|].
  destruct (read_file_inv _ _ Hstd) as (_ & Hdnull & _).
  destruct (read_file_inv _ _ Hstp) as (_ & Hpnull & _).
  rewrite Hout, (strings_of_null_terminated _ _ Hdnull),
    (strings_of_null_terminated _ _ Hpnull), Hdlines, Hplines.
  by rewrite !kept_of_text_lines.
Qed.

Lemma text_files_end_to_end_witness :
  Forall (λ s, (LF ∉ list_ascii_of_string s) ∧ (NUL ∉ list_ascii_of_string s))
    (sample_deps ++ sample_pkgs)
  ∧ Z.of_nat (length sample_deps) ≤ INT_MAX
  ∧ Z.of_nat (length sample_pkgs) ≤ INT_MAX
  ∧ ∃ trace,
      main (PatternMatcher.pkg_match_int 0)
        (sample_env (text sample_deps) (text sample_pkgs)) = Ok (0, trace)
      ∧ stderr_of trace = []
      ∧ stdout_of trace =
          sample_deps ≫= λ dep,
            print_match dep
              <$> filter (λ pkg, PatternMatcher.pkg_match_int 0 dep pkg ≠ 0)
                    sample_pkgs.
Proof.
  assert (Forall (λ s, (LF ∉ list_ascii_of_string s)
                       ∧ (NUL ∉ list_ascii_of_string s))
            (sample_deps ++ sample_pkgs)) as H1
    by (apply (bool_decide_unpack _); vm_compute; exact I).
  assert (Z.of_nat (length sample_deps) ≤ INT_MAX) as H2
    by (vm_compute; discriminate).
  assert (Z.of_nat (length sample_pkgs) ≤ INT_MAX) as H3
    by (vm_compute; discriminate).
  split; [exact H1|]. split; [exact H2|]. split; [exact H3|].
  exact (text_files_end_to_end (PatternMatcher.pkg_match_int 0)
           (sample_env (text sample_deps) (text sample_pkgs))
           _ _ _ _ _ eq_refl eq_refl eq_refl H1 H2 H3).
Defined.

(** ** Reading past a line *)

(** [insert_line] is [store_string] behind [chomp] and [strdup]. *)
Lemma insert_line_store_string st dep :
  insert_line st dep = chomp dep ≫= λ buf, strdup buf ≫= store_string st.
Proof. unfold insert_line. by destruct (chomp dep). Qed.

(** Bytes behind a buffer that holds a NUL are not read. *)
Lemma strdup_app buf behind s :
  strdup buf = Ok s → strdup (buf ++ behind) = Ok s.
Proof.
  revert s. induction buf as [|c buf IH]; intros s Hs; simpl in *; [done|].
  destruct (Ascii.eqb c NUL); [done|].
  destruct (strdup buf) as [s'| |]; simpl in Hs; try done.
  by rewrite (IH s').
Qed.

Lemma chomp_nonempty dep : dep ≠ [] → ∃ buf, chomp dep = Ok buf.
Proof.
  intros Hne.
  destruct (decide (last dep = Some LF)) as [Hlast|Hlast].
  - rewrite chomp_newline by done. eauto.
  - rewrite chomp_other by done. eauto.
Qed.

(** On a line that ends in a newline or holds a NUL byte the two loop
    bodies are the same, whatever follows the line in memory. *)
Lemma insert_line_mem_terminated behind st dep :
  dep ≠ [] → terminated dep →
  insert_line_mem behind st dep = insert_line st dep.
Proof.
  intros Hne Hterm. rewrite insert_line_store_string. unfold insert_line_mem.
  pose proof (chomp_strdup dep Hne) as Hcs.
  rewrite decide_True in Hcs by done.
  destruct (chomp dep) as [buf| |]; simpl in Hcs |- *; try done.
  by rewrite (strdup_app _ _ _ Hcs), Hcs.
Qed.

Lemma read_loop_mem_terminated behind fp : ∀ st,
  Forall (λ l, l ≠ [] ∧ terminated l) fp →
  read_loop_mem behind st fp = read_loop st fp.
Proof.
  induction fp as [|dep fp IH]; intros st Hall; simpl; [done|].
  inversion Hall as [|? ? [Hne Hterm] Hall']; subst.
  rewrite insert_line_mem_terminated by done.
  destruct (insert_line st dep) as [st1| |]; simpl; [by apply IH|done..].
Qed.


(** Storing a string keeps the invariant of the reading loop, whatever the
    string is. *)
Lemma store_string_inv ss st s :
  read_inv ss st → cnt st < INT_MAX →
  ∃ st', store_string st s = Ok st' ∧ read_inv (ss ++ [s]) st'.
Proof.
  intros Hinv Hd.
  pose proof (read_inv_cap_bound _ _ Hinv) as Hcap.
  destruct Hinv as [Hcnt Hlen Hlt Hmax [k Hpow] Htight Harr].
  unfold store_string, store.
  rewrite decide_True by lia. simpl.
  unfold int_incr. rewrite decide_True by done. simpl.
  rewrite size_of_int_small by lia.
  assert (Z.to_nat (cnt st) = length ss) as Hidx by lia.
  rewrite Hidx.
  assert (length ss < length (arr st))%nat as Hslot by lia.
  pose proof (take_store_snoc _ _ s Hslot Harr) as Htake.
  change (2 ^ 32) with 4294967296 in Hcap.
  destruct (decide (cnt st + 1 = cap st)) as [Hfull|Hroom].
  - rewrite (size_mul_small (cap st) 2)
      by (change (2 ^ 64) with 18446744073709551616; lia).
    rewrite size_mul_small
      by (unfold sizeof_ptr; change (2 ^ 64) with 18446744073709551616; lia).
    assert (cap st * 2 * sizeof_ptr / sizeof_ptr = cap st * 2) as Hdiv
      by (by apply Z.div_mul).
    destruct (xrealloc_grow (<[length ss := Str s]> (arr st))
                (cap st * 2 * sizeof_ptr)) as [Hgrow Hglen].
    { rewrite Hdiv, length_insert. lia. }
    eexists. split; [done|].
    split; cbn [arr cnt cap].
    + rewrite length_app. simpl. lia.
    + by rewrite Hglen, Hdiv.
    + lia.
    + lia.
    + exists (S k). rewrite Nat2Z.inj_succ, Z.pow_succ_r by lia. lia.
    + right. lia.
    + rewrite Hgrow. rewrite take_app_le; [done|].
      rewrite length_insert, length_app. simpl. lia.
  - eexists. split; [done|].
    split; cbn [arr cnt cap].
    + rewrite length_app. simpl. lia.
    + by rewrite length_insert.
    + lia.
    + lia.
    + by exists k.
    + destruct Htight as [Hi|Ht]; [by left | right; lia].
    + done.
Qed.

(** An iteration completes as long as [strdup] finds a NUL, in the line or
    behind it, and the count can still be incremented. *)
Lemma insert_line_mem_inv behind ss st dep :
  read_inv ss st → dep ≠ [] → terminated dep ∨ NUL ∈ behind →
  cnt st < INT_MAX →
  ∃ s st', insert_line_mem behind st dep = Ok st' ∧ read_inv (ss ++ [s]) st'.
Proof.
  intros Hinv Hne Hnul Hd. unfold insert_line_mem.
  assert (∃ buf s, chomp dep = Ok buf ∧ strdup (buf ++ behind) = Ok s)
    as (buf & s & Hchomp & Hdup).
  { destruct (decide (terminated dep)) as [Hterm|Hterm].
    - pose proof (chomp_strdup dep Hne) as Hcs.
      rewrite decide_True in Hcs by done.
      destruct (chomp dep) as [buf| |]; simpl in Hcs; try done.
      exists buf, (kept_of_line dep). split; [done|]. by apply strdup_app.
    - destruct Hnul as [Hterm'|Hin]; [done|].
      destruct (chomp_nonempty dep Hne) as [buf Hchomp].
      exists buf, (until_nul (buf ++ behind)). split; [done|].
      apply strdup_until_nul, elem_of_app. by right. }
  rewrite Hchomp. simpl. rewrite Hdup. simpl.
  destruct (store_string_inv ss st s Hinv Hd) as (st' & Hst & Hinv').
  by exists s, st'.
Qed.

Lemma read_loop_mem_inv behind fp : ∀ ss st,
  read_inv ss st →
  Forall (λ l, l ≠ []) fp →
  Forall terminated fp ∨ NUL ∈ behind →
  cnt st + Z.of_nat (length fp) ≤ INT_MAX →
  ∃ ss' st',
    read_loop_mem behind st fp = Ok st'
    ∧ read_inv ss' st'
    ∧ cnt st' = cnt st + Z.of_nat (length fp).
Proof.
  induction fp as [|dep fp IH]; intros ss st Hinv Hne Hnul Hfit; simpl.
  - exists ss, st. split; [done|]. split; [done|lia].
  - inversion Hne as [|? ? Hdep Hfp]; subst.
    rewrite length_cons in Hfit.
    destruct (insert_line_mem_inv behind ss st dep) as (s & st1 & Hins & Hinv1);
      [done|done| |lia|].
    { destruct Hnul as [Hall|Hin]; [left|by right].
      by inversion Hall. }
    rewrite Hins. simpl.
    assert (cnt st1 = cnt st + 1) as Hc.
    { destruct Hinv as [Hc0 _ _ _ _ _ _], Hinv1 as [Hc1 _ _ _ _ _ _].
      rewrite length_app in Hc1. simpl in Hc1. lia. }
    destruct (IH (ss ++ [s]) st1) as (ss' & st' & Hloop & Hinv' & Hc');
      [done|done| |lia|].
    { destruct Hnul as [Hall|Hin]; [left|by right].
      by inversion Hall. }
    exists ss', st'. split; [done|]. split; [done|lia].
Qed.

(** C8, as amended: after a reading loop over a file of at most INT_MAX
    lines the store of the NULL terminator is in bounds.  Whatever the
    lines are, and also when [strdup] has read past an unterminated last
    line and stopped at a NUL behind it, the loop exits with the count equal
    to the number of lines, at least 0 and strictly below the capacity,
    which is the number of cells of the array, so that [deps[d] = NULL]
    writes to a cell that exists.  When every line ends in a newline or
    holds a NUL byte nothing behind the lines is read, and the loop that
    stays within defined behaviour exits in that same state. *)
Theorem terminator_store_in_bounds bytes behind :
  Z.of_nat (length (file_lines bytes)) ≤ INT_MAX →
  Forall terminated (file_lines bytes) ∨ NUL ∈ behind →
  ∃ st,
    read_loop_mem behind read_init (file_lines bytes) = Ok st
    ∧ cnt st = Z.of_nat (length (file_lines bytes))
    ∧ 0 ≤ cnt st < cap st
    ∧ Z.of_nat (length (arr st)) = cap st
    ∧ (∃ a, store (arr st) (cnt st) Null = Ok a)
    ∧ (Forall terminated (file_lines bytes) →
       read_loop read_init (file_lines bytes) = Ok st).
Proof.
  intros Hfit Hnul.
  destruct (read_loop_mem_inv behind (file_lines bytes) [] read_init)
    as (ss & st & Hloop & Hinv & Hcnt).
  - apply read_init_inv.
  - apply file_lines_nonempty.
  - done.
  - simpl. lia.
  - exists st. simpl in Hcnt.
    destruct Hinv as [Hc Hlen Hlt _ _ _ _].
    split; [done|]. split; [lia|]. split; [lia|]. split; [done|].
    split.
    + unfold store. rewrite decide_True by lia. eauto.
    + intros Hall. rewrite <- Hloop. symmetry.
      apply read_loop_mem_terminated.
      apply Forall_and. split; [apply file_lines_nonempty | done].
Qed.

Lemma terminator_store_in_bounds_witness :
  Z.of_nat (length (file_lines ["a"%char; "b"%char; "c"%char])) ≤ INT_MAX
  ∧ (Forall terminated (file_lines ["a"%char; "b"%char; "c"%char])
     ∨ NUL ∈ [NUL])
  ∧ ∃ st,
      read_loop_mem [NUL] read_init (file_lines ["a"%char; "b"%char; "c"%char])
        = Ok st
      ∧ cnt st = Z.of_nat (length (file_lines ["a"%char; "b"%char; "c"%char]))
      ∧ 0 ≤ cnt st < cap st
      ∧ Z.of_nat (length (arr st)) = cap st
      ∧ (∃ a, store (arr st) (cnt st) Null = Ok a)
      ∧ (Forall terminated (file_lines ["a"%char; "b"%char; "c"%char]) →
         read_loop read_init (file_lines ["a"%char; "b"%char; "c"%char])
           = Ok st).
Proof.
  assert (Z.of_nat (length (file_lines ["a"%char; "b"%char; "c"%char]))
          ≤ INT_MAX) as H1 by (vm_compute; discriminate).
  assert (Forall terminated (file_lines ["a"%char; "b"%char; "c"%char])
          ∨ NUL ∈ [NUL]) as H2 by (right; apply list_elem_of_here).
  exact (conj H1 (conj H2 (terminator_store_in_bounds _ _ H1 H2))).
Defined.

(** C8 as first stated fails: the slot for the terminator does not exist
    for every file.  The count is an [int]; on a file of 2^31 lines (here
    2^31 newline bytes) the increment [d++] of the last iteration overflows,
    which C leaves undefined, before the loop can exit and the terminator
    be stored.  What lies behind the lines in memory plays no part. *)
Lemma terminator_store_not_reached :
  Z.of_nat (length (file_lines (replicate (Z.to_nat (2 ^ 31)) LF))) = 2 ^ 31
  ∧ read_loop read_init (file_lines (replicate (Z.to_nat (2 ^ 31)) LF))
    = Undefined IntOverflow
  ∧ (∀ behind,
       read_loop_mem behind read_init
         (file_lines (replicate (Z.to_nat (2 ^ 31)) LF))
       = Undefined IntOverflow)
  ∧ ¬ ∃ st,
        read_loop read_init (file_lines (replicate (Z.to_nat (2 ^ 31)) LF))
          = Ok st
        ∧ cnt st < cap st.
Proof.
  assert (Forall (λ l, l ≠ [] ∧ terminated l)
            (file_lines (replicate (Z.to_nat (2 ^ 31)) LF))) as Hall.
  { rewrite file_lines_newlines. apply Forall_replicate.
    split; [done | by left]. }
  assert (Z.of_nat (length (file_lines (replicate (Z.to_nat (2 ^ 31)) LF)))
          = 2 ^ 31) as Hlen.
  { rewrite file_lines_newlines, length_replicate, Z2Nat.id; [done|].
    discriminate. }
  assert (read_loop read_init (file_lines (replicate (Z.to_nat (2 ^ 31)) LF))
          = Undefined IntOverflow) as Hloop.
  { apply (read_loop_overflow _ [] read_init); [apply read_init_inv|done|].
    rewrite Hlen. by vm_compute. }
  split; [done|]. split; [done|]. split.
  - intros behind. by rewrite read_loop_mem_terminated.
  - intros (st & Hst & _). by rewrite Hloop in Hst.
Qed.

(** ** Runs on identical files *)

(** C6 fails on a file whose last line has no newline.  [pkgdeps.txt]
    holds the six bytes [foo>=1], [pkgnames.txt] holds [foo-1.5] and a
    newline.  [strdup] reads past the six bytes: within defined behaviour
    the run has no result, and on a machine the constraint that is stored,
    and with it what is printed, is decided by the bytes that happen to
    follow the line in memory.  With a NUL right behind the line the run
    prints a match; with [0] and a NUL behind it the same files print
    nothing. *)
Theorem output_depends_on_memory :
  main (PatternMatcher.pkg_match_int 0)
    (sample_env (list_ascii_of_string "foo>=1") (text ["foo-1.5"]))
  = Undefined ReadPastLine
  ∧ read_file_mem [NUL] (list_ascii_of_string "foo>=1")
    = Ok (sample_read_state ["foo>=1"])
  ∧ read_file_mem ["0"%char; NUL] (list_ascii_of_string "foo>=1")
    = Ok (sample_read_state ["foo>=10"])
  ∧ observable
      (main_mem (PatternMatcher.pkg_match_int 0) [NUL] []
         (sample_env (list_ascii_of_string "foo>=1") (text ["foo-1.5"])))
    = Ok (0, [print_match "foo>=1" "foo-1.5"], [])
  ∧ observable
      (main_mem (PatternMatcher.pkg_match_int 0) ["0"%char; NUL] []
         (sample_env (list_ascii_of_string "foo>=1") (text ["foo-1.5"])))
    = Ok (0, [], []).
Proof.
  split; [vm_compute; reflexivity|].
  split; [vm_cast_no_check (eq_refl (Ok (sample_read_state ["foo>=1"])))|].
  split; [vm_cast_no_check (eq_refl (Ok (sample_read_state ["foo>=10"])))|].
  split; vm_compute; reflexivity.
Qed.


